(** * RosSubscriberSystem: a ROS subscriber as a Drake leaf system

    Shallow embedding of [include/drake_ros_systems/ros_subscriber_system.h].

    The class template [RosSubscriberSystem<RosMessage>] keeps the most
    recently received ROS message and a message counter behind a mutex, and
    copies both into the abstract state of a Drake context when the
    simulator processes an unrestricted update event.

    Layout of this file:
    - machine integers ([int]) and doubles as the code has them;
    - the data model: abstract values, contexts, the system object;
    - the member functions, one definition per function, with the
      lock-protected bodies taken as atomic;
    - a thread-level model in which every statement under the mutex is a
      step of its own, with an interleaving scheduler;
    - the properties. *)

From Stdlib Require Import ZArith Lia Bool String.
From Stdlib Require Import Floats.
From stdpp Require Import base tactics option list.

Local Open Scope Z_scope.

(** The source writes the decimal literal [0.0001]; as in C++ it denotes the
    nearest binary64 value. *)
#[local] Set Warnings "-inexact-float".

(** ** The C++ [int]: 32 bits, two's complement *)

Module Int.

Definition width : Z := 32.
Definition modulus : Z := 2 ^ width.
Definition INT_MAX : Z := 2 ^ (width - 1) - 1.
Definition INT_MIN : Z := - 2 ^ (width - 1).

(** The value an [int] object holds after a result [z] is stored in it. *)
Definition wrap (z : Z) : Z := (z - INT_MIN) mod modulus + INT_MIN.

(** [i++] *)
Definition incr (i : Z) : Z := wrap (i + 1).

Definition in_range (z : Z) : Prop := INT_MIN <= z <= INT_MAX.

End Int.

(** ** The C++ [double]: IEEE 754 binary64

    Times are the kernel's binary64 numbers ([float]); their operations are
    specified by [SpecFloat] at precision 53 and maximal exponent 1024. *)

(** The binary64 number nearest to the decimal 0.0001. *)
Definition binary64_0_0001 : spec_float :=
  S754_finite false 7378697629483821 (-66).

(** What [k] right shifts leave of a non-negative mantissa: the quotient, the
    last bit shifted out, and whether any bit below it was set. *)
Definition shifted (s : Z) (k : nat) : shr_record :=
  {| shr_m := s / 2 ^ Z.of_nat k;
     shr_r := match k with O => false | S j => Z.testbit s (Z.of_nat j) end;
     shr_s := match k with
              | O => false
              | S j => negb (s mod 2 ^ Z.of_nat j =? 0)
              end |}.

(** A call either returns or, on a failed [DRAKE_DEMAND], aborts the
    process. *)
Inductive demand (A : Type) : Type :=
| Returned (a : A)
| Aborted.
Arguments Returned {A} a.
Arguments Aborted {A}.

(** ** The framework types the class is written against

    [systems::AbstractValue] is a type-erased box.  A context of this system
    holds boxes of two types only: [Value<RosMessage>] and [Value<int>].
    Reading or assigning a box at the wrong type throws, which the embedding
    renders as [None]. *)

Section Subscriber.

(** The template parameter, and its value-initialised object [RosMessage{}]. *)
Context {RosMessage : Type}.
Variable RosMessage_default : RosMessage.

(** [ros::NodeHandle], [ros::Subscriber] and [NodeHandle::subscribe]
    belong to the ROS client library. *)
Context {NodeHandle : Type}.
Context {Subscriber : Type}.
Variable subscribe : NodeHandle -> string -> Z -> Subscriber.

(** Continuous and discrete state of a [systems::State<double>]; this
    system declares neither, the framework carries them all the same. *)
Context {ContinuousState : Type}.
Context {DiscreteValues : Type}.

Inductive AbstractValue : Type :=
| Value_RosMessage (value : RosMessage)
| Value_int (value : Z).

(** [AbstractValue::SetFrom]: assignment between boxes of one type. *)
Definition SetFrom (self other : AbstractValue) : option AbstractValue :=
  match self, other with
  | Value_RosMessage _, Value_RosMessage m => Some (Value_RosMessage m)
  | Value_int _, Value_int i => Some (Value_int i)
  | _, _ => None
  end.

(** [systems::AbstractValues]: a vector of boxes. *)
Definition AbstractValues : Type := list AbstractValue.

Record State : Type := {
  continuous_state : ContinuousState;
  discrete_state : DiscreteValues;
  abstract_state : AbstractValues
}.

Record Context : Type := {
  get_time : float;
  get_state : State
}.

(** [values.get_value(index)] *)
Definition get_value (values : AbstractValues) (index : nat)
  : option AbstractValue :=
  values !! index.

(** [context.get_abstract_state<int>(index)] *)
Definition get_abstract_state_int (context : Context) (index : nat)
  : option Z :=
  match get_value (abstract_state (get_state context)) index with
  | Some (Value_int i) => Some i
  | _ => None
  end.

(** [values->get_mutable_value(index).GetMutableValue<RosMessage>() = m] *)
Definition assign_RosMessage (values : AbstractValues) (index : nat)
    (m : RosMessage) : option AbstractValues :=
  match get_value values index with
  | Some (Value_RosMessage _) => Some (<[index := Value_RosMessage m]> values)
  | _ => None
  end.

(** [values->get_mutable_value(index).GetMutableValue<int>() = i] *)
Definition assign_int (values : AbstractValues) (index : nat) (i : Z)
  : option AbstractValues :=
  match get_value values index with
  | Some (Value_int _) => Some (<[index := Value_int i]> values)
  | _ => None
  end.

Definition with_abstract_state (s : State) (a : AbstractValues) : State :=
  {| continuous_state := continuous_state s;
     discrete_state := discrete_state s;
     abstract_state := a |}.

(** Events.  Of [Event<double>::TriggerType] the class names [kTimed]
    only. *)
Inductive TriggerType : Type := kForced | kTimed | kPeriodic | kPerStep.

Record UnrestrictedUpdateEvent : Type := {
  get_trigger_type : TriggerType
}.

Record CompositeEventCollection : Type := {
  publish_events : list TriggerType;
  discrete_update_events : list TriggerType;
  unrestricted_update_events : list UnrestrictedUpdateEvent
}.

(** [events->get_mutable_unrestricted_update_events().add_event(e)] *)
Definition add_unrestricted_update_event
    (events : CompositeEventCollection) (e : UnrestrictedUpdateEvent)
  : CompositeEventCollection :=
  {| publish_events := publish_events events;
     discrete_update_events := discrete_update_events events;
     unrestricted_update_events := unrestricted_update_events events ++ [e] |}.

Definition no_events : CompositeEventCollection :=
  {| publish_events := [];
     discrete_update_events := [];
     unrestricted_update_events := [] |}.

(** ** The object *)

Abbreviation thread_id := nat (only parsing).

(** The data members.  A [std::mutex] is its owner, if any; a
    [std::condition_variable] is the list of threads blocked in [wait]. *)
Record RosSubscriberSystem : Type := {
  topic_ : string;
  received_message_mutex_ : option thread_id;
  received_message_condition_variable_ : list thread_id;
  received_message_ : RosMessage;
  received_message_count_ : Z;
  node_handle_ : NodeHandle;
  subscriber_ : Subscriber;
  get_name : string
}.

Definition kStateIndexMessage : nat := 0.
Definition kStateIndexMessageCount : nat := 1.

Definition make_name (topic : string) : string :=
  ("RosSubscriberSystem(" ++ topic ++ ")")%string.

(** The constructor.  [node_handle] is a pointer: [None] is [nullptr].
    The members without an initialiser in the constructor take their
    default member initialisers. *)
Definition new_RosSubscriberSystem (topic : string)
    (node_handle : option NodeHandle) : demand RosSubscriberSystem :=
  match node_handle with
  | None => Aborted
  | Some nh =>
      Returned
        {| topic_ := topic;
           received_message_mutex_ := None;
           received_message_condition_variable_ := [];
           received_message_ := RosMessage_default;
           received_message_count_ := 0;
           node_handle_ := nh;
           subscriber_ := subscribe nh topic 100;
           get_name := make_name topic |}
  end.

Definition Make (topic : string) (node_handle : option NodeHandle)
  : demand RosSubscriberSystem :=
  new_RosSubscriberSystem topic node_handle.

Definition get_topic_name (self : RosSubscriberSystem) : string :=
  topic_ self.

(** ** Member functions, lock-protected bodies taken as atomic *)

Definition GetMessageCount (context : Context) : option Z :=
  get_abstract_state_int context kStateIndexMessageCount.

(** [DoCalcNextUpdateTime].  [events] and [time] are the in-out
    parameters; the context is [const]. *)
Definition DoCalcNextUpdateTime (self : RosSubscriberSystem)
    (context : Context) (events : CompositeEventCollection) (time : float)
  : option (CompositeEventCollection * float) :=
  last_message_count ← GetMessageCount context;
  let received_message_count := received_message_count_ self in
  if decide (last_message_count ≠ received_message_count) then
    Some (add_unrestricted_update_event events
            {| get_trigger_type := kTimed |},
          (get_time context + 0.0001)%float)
  else Some (events, time).

Definition ProcessMessageAndStoreToAbstractState
    (self : RosSubscriberSystem) (abstract_state : AbstractValues)
  : option AbstractValues :=
  a ← assign_RosMessage abstract_state kStateIndexMessage
        (received_message_ self);
  assign_int a kStateIndexMessageCount (received_message_count_ self).

Definition DoCalcUnrestrictedUpdate (self : RosSubscriberSystem)
    (context : Context) (events : list UnrestrictedUpdateEvent)
    (state : State) : option State :=
  with_abstract_state state
    <$> ProcessMessageAndStoreToAbstractState self (abstract_state state).

Definition AllocateOutputValue : AbstractValue :=
  Value_RosMessage RosMessage_default.

(** A vector of two boxes: index [kStateIndexMessage] holds the message,
    index [kStateIndexMessageCount] the [int] 0. *)
Definition AllocateAbstractState : AbstractValues :=
  [AllocateOutputValue; Value_int 0].

Definition SetDefaultState (self : RosSubscriberSystem) (context : Context)
    (state : State) : option State :=
  with_abstract_state state
    <$> ProcessMessageAndStoreToAbstractState self (abstract_state state).

(** [HandleMessage]: store, count, [notify_all]. *)
Definition HandleMessage (self : RosSubscriberSystem) (message : RosMessage)
  : RosSubscriberSystem :=
  {| topic_ := topic_ self;
     received_message_mutex_ := received_message_mutex_ self;
     received_message_condition_variable_ := [];
     received_message_ := message;
     received_message_count_ := Int.incr (received_message_count_ self);
     node_handle_ := node_handle_ self;
     subscriber_ := subscriber_ self;
     get_name := get_name self |}.

Definition CalcOutputValue (context : Context) (output_value : AbstractValue)
  : option AbstractValue :=
  v ← get_value (abstract_state (get_state context)) kStateIndexMessage;
  SetFrom output_value v.

(** ** The simulator's view: one system object and one context

    The ROS callback thread delivers messages; the simulator polls
    ([CalcNextUpdateTime]), commits ([CalcUnrestrictedUpdate]), resets the
    state to its default, advances time and evaluates the output port.  The
    framework hands [DoCalcUnrestrictedUpdate] and [SetDefaultState] a copy
    of the context's state and stores the result back. *)

Record World : Type := {
  the_system : RosSubscriberSystem;
  the_context : Context
}.

Inductive Operation : Type :=
| Deliver (message : RosMessage)
| CalcNextUpdateTime
| CalcUnrestrictedUpdate
| ResetToDefaultState
| AdvanceTime (t : float)
| CalcOutput.

Definition with_state (context : Context) (s : State) : Context :=
  {| get_time := get_time context; get_state := s |}.

Definition exec (op : Operation) (w : World) : option World :=
  let self := the_system w in
  let context := the_context w in
  match op with
  | Deliver message =>
      Some {| the_system := HandleMessage self message;
              the_context := context |}
  | CalcNextUpdateTime =>
      _ ← DoCalcNextUpdateTime self context no_events infinity;
      Some w
  | CalcUnrestrictedUpdate =>
      s ← DoCalcUnrestrictedUpdate self context
             [ {| get_trigger_type := kTimed |} ] (get_state context);
      Some {| the_system := self; the_context := with_state context s |}
  | ResetToDefaultState =>
      s ← SetDefaultState self context (get_state context);
      Some {| the_system := self; the_context := with_state context s |}
  | AdvanceTime t =>
      Some {| the_system := self;
              the_context := {| get_time := t;
                                get_state := get_state context |} |}
  | CalcOutput =>
      _ ← CalcOutputValue context AllocateOutputValue;
      Some w
  end.

Fixpoint run (ops : list Operation) (w : World) : option World :=
  match ops with
  | [] => Some w
  | op :: ops' => w' ← exec op w; run ops' w'
  end.

(** [AllocateContext]: the state as [AllocateAbstractState] makes it, at
    time zero. *)
Definition AllocateContext (xc : ContinuousState) (xd : DiscreteValues)
  : Context :=
  {| get_time := 0%float;
     get_state := {| continuous_state := xc;
                     discrete_state := xd;
                     abstract_state := AllocateAbstractState |} |}.

Definition is_deliver (op : Operation) : bool :=
  match op with Deliver _ => true | _ => false end.

(** How many messages a trace delivers. *)
Definition deliveries (ops : list Operation) : Z :=
  Z.of_nat (length (List.filter is_deliver ops)).

(** A world the simulator can be in: the object comes out of the
    constructor, the context out of [AllocateContext], and [ops] ran. *)
Definition reachable_by (ops : list Operation) (w : World) : Prop :=
  ∃ topic node_handle self xc xd,
    new_RosSubscriberSystem topic (Some node_handle) = Returned self ∧
    run ops {| the_system := self; the_context := AllocateContext xc xd |}
      = Some w.

Definition reachable (w : World) : Prop := ∃ ops, reachable_by ops w.

(** The content of Snapshot State. *)
Definition snapshot_message (context : Context) : option RosMessage :=
  match get_value (abstract_state (get_state context)) kStateIndexMessage with
  | Some (Value_RosMessage m) => Some m
  | _ => None
  end.

(** The (message, counter) pair held by the abstract state of a context of
    this system. *)
Definition snapshot_pair (a : AbstractValues) : option (RosMessage * Z) :=
  match a with
  | [Value_RosMessage message; Value_int count] => Some (message, count)
  | _ => None
  end.

(** Deliveries in a row, oldest first. *)
Definition deliver_all (self : RosSubscriberSystem)
    (messages : list RosMessage) : RosSubscriberSystem :=
  foldl HandleMessage self messages.

(** ** Threads

    Below the atomic view every statement executed under
    [received_message_mutex_] is a step of its own, and a schedule interleaves
    the steps of the threads.  A thread works through a list of calls; it owns
    the [AbstractValues] object it hands to
    [ProcessMessageAndStoreToAbstractState] (the scheduler's state) and it
    remembers what [WaitForMessage] returned to it. *)

Inductive Call : Type :=
| call_HandleMessage (message : RosMessage)
| call_ProcessMessageAndStoreToAbstractState
| call_WaitForMessage (old_message_count : Z).

(** Program points; the line numbers are those of the header file. *)
Inductive ProgramCounter : Type :=
| pc_idle
| pc_thrown
| HandleMessage_lock (message : RosMessage)      (* line 183 *)
| HandleMessage_store (message : RosMessage)     (* line 184 *)
| HandleMessage_count                            (* line 185 *)
| HandleMessage_notify                           (* line 186 *)
| HandleMessage_unlock                           (* line 187 *)
| Process_lock                                   (* line 172 *)
| Process_message                                (* lines 173-174 *)
| Process_count                                  (* lines 175-176 *)
| Process_unlock                                 (* line 177 *)
| WaitForMessage_lock (old_message_count : Z)    (* line 101 *)
| WaitForMessage_test (old_message_count : Z)    (* line 105 *)
| WaitForMessage_wait (old_message_count : Z)    (* line 108, blocked *)
| WaitForMessage_read (old_message_count : Z)    (* line 109 *)
| WaitForMessage_unlock (old_message_count new_message_count : Z). (* 110 *)

Record Thread : Type := {
  pc : ProgramCounter;
  pending : list Call;
  scheduler_state : AbstractValues;
  waits_returned : list (Z * Z)
}.

(** [delivered] is a log, not program state: the (message, counter) pairs
    the deliveries wrote, in the order in which they held the mutex. *)
Record Machine : Type := {
  object : RosSubscriberSystem;
  threads : list Thread;
  delivered : list (RosMessage * Z)
}.

Definition set_mutex (self : RosSubscriberSystem) (owner : option thread_id)
  : RosSubscriberSystem :=
  {| topic_ := topic_ self;
     received_message_mutex_ := owner;
     received_message_condition_variable_ :=
       received_message_condition_variable_ self;
     received_message_ := received_message_ self;
     received_message_count_ := received_message_count_ self;
     node_handle_ := node_handle_ self;
     subscriber_ := subscriber_ self;
     get_name := get_name self |}.

Definition set_condition_variable (self : RosSubscriberSystem)
    (blocked : list thread_id) : RosSubscriberSystem :=
  {| topic_ := topic_ self;
     received_message_mutex_ := received_message_mutex_ self;
     received_message_condition_variable_ := blocked;
     received_message_ := received_message_ self;
     received_message_count_ := received_message_count_ self;
     node_handle_ := node_handle_ self;
     subscriber_ := subscriber_ self;
     get_name := get_name self |}.

Definition set_received_message (self : RosSubscriberSystem)
    (message : RosMessage) : RosSubscriberSystem :=
  {| topic_ := topic_ self;
     received_message_mutex_ := received_message_mutex_ self;
     received_message_condition_variable_ :=
       received_message_condition_variable_ self;
     received_message_ := message;
     received_message_count_ := received_message_count_ self;
     node_handle_ := node_handle_ self;
     subscriber_ := subscriber_ self;
     get_name := get_name self |}.

Definition set_received_message_count (self : RosSubscriberSystem)
    (count : Z) : RosSubscriberSystem :=
  {| topic_ := topic_ self;
     received_message_mutex_ := received_message_mutex_ self;
     received_message_condition_variable_ :=
       received_message_condition_variable_ self;
     received_message_ := received_message_ self;
     received_message_count_ := count;
     node_handle_ := node_handle_ self;
     subscriber_ := subscriber_ self;
     get_name := get_name self |}.

(** [std::mutex::lock] by thread [t]: possible when nobody owns the mutex. *)
Definition lock (t : thread_id) (self : RosSubscriberSystem)
  : option RosSubscriberSystem :=
  match received_message_mutex_ self with
  | None => Some (set_mutex self (Some t))
  | Some _ => None
  end.

Definition unlock (self : RosSubscriberSystem) : RosSubscriberSystem :=
  set_mutex self None.

(** [notify_all]: nobody stays blocked. *)
Definition notify_all (self : RosSubscriberSystem) : RosSubscriberSystem :=
  set_condition_variable self [].

(** [wait(lock)], first half: release the mutex and block. *)
Definition wait_block (t : thread_id) (self : RosSubscriberSystem)
  : RosSubscriberSystem :=
  set_condition_variable (unlock self)
    (received_message_condition_variable_ self ++ [t]).

Definition is_blocked (t : thread_id) (self : RosSubscriberSystem) : bool :=
  bool_decide (t ∈ received_message_condition_variable_ self).

Definition at_pc (th : Thread) (p : ProgramCounter) : Thread :=
  {| pc := p;
     pending := pending th;
     scheduler_state := scheduler_state th;
     waits_returned := waits_returned th |}.

Definition entry (c : Call) : ProgramCounter :=
  match c with
  | call_HandleMessage message => HandleMessage_lock message
  | call_ProcessMessageAndStoreToAbstractState => Process_lock
  | call_WaitForMessage old_message_count =>
      WaitForMessage_lock old_message_count
  end.

(** One step of thread [t]; [None] when the thread cannot move (it has
    nothing left to do, waits for the mutex, or is blocked in [wait]). *)
Definition step_thread (t : thread_id) (self : RosSubscriberSystem)
    (log : list (RosMessage * Z)) (th : Thread)
  : option (RosSubscriberSystem * list (RosMessage * Z) * Thread) :=
  match pc th with
  | pc_idle =>
      match pending th with
      | [] => None
      | c :: rest =>
          Some (self, log,
                {| pc := entry c;
                   pending := rest;
                   scheduler_state := scheduler_state th;
                   waits_returned := waits_returned th |})
      end
  | pc_thrown => None
  | HandleMessage_lock message =>
      self' ← lock t self;
      Some (self', log, at_pc th (HandleMessage_store message))
  | HandleMessage_store message =>
      Some (set_received_message self message, log,
            at_pc th HandleMessage_count)
  | HandleMessage_count =>
      let count := Int.incr (received_message_count_ self) in
      Some (set_received_message_count self count,
            log ++ [(received_message_ self, count)],
            at_pc th HandleMessage_notify)
  | HandleMessage_notify =>
      Some (notify_all self, log, at_pc th HandleMessage_unlock)
  | HandleMessage_unlock =>
      Some (unlock self, log, at_pc th pc_idle)
  | Process_lock =>
      self' ← lock t self;
      Some (self', log, at_pc th Process_message)
  | Process_message =>
      match assign_RosMessage (scheduler_state th) kStateIndexMessage
              (received_message_ self) with
      | Some a =>
          Some (self, log,
                {| pc := Process_count;
                   pending := pending th;
                   scheduler_state := a;
                   waits_returned := waits_returned th |})
      | None => Some (unlock self, log, at_pc th pc_thrown)
      end
  | Process_count =>
      match assign_int (scheduler_state th) kStateIndexMessageCount
              (received_message_count_ self) with
      | Some a =>
          Some (self, log,
                {| pc := Process_unlock;
                   pending := pending th;
                   scheduler_state := a;
                   waits_returned := waits_returned th |})
      | None => Some (unlock self, log, at_pc th pc_thrown)
      end
  | Process_unlock =>
      Some (unlock self, log, at_pc th pc_idle)
  | WaitForMessage_lock old_message_count =>
      self' ← lock t self;
      Some (self', log, at_pc th (WaitForMessage_test old_message_count))
  | WaitForMessage_test old_message_count =>
      if decide (old_message_count = received_message_count_ self) then
        Some (wait_block t self, log,
              at_pc th (WaitForMessage_wait old_message_count))
      else
        Some (self, log, at_pc th (WaitForMessage_read old_message_count))
  | WaitForMessage_wait old_message_count =>
      if is_blocked t self then None
      else
        self' ← lock t self;
        Some (self', log, at_pc th (WaitForMessage_test old_message_count))
  | WaitForMessage_read old_message_count =>
      Some (self, log,
            at_pc th (WaitForMessage_unlock old_message_count
                        (received_message_count_ self)))
  | WaitForMessage_unlock old_message_count new_message_count =>
      Some (unlock self, log,
            {| pc := pc_idle;
               pending := pending th;
               scheduler_state := scheduler_state th;
               waits_returned :=
                 waits_returned th ++ [(old_message_count, new_message_count)] |})
  end.

(** What a schedule is made of: a thread takes its next step, or a thread
    blocked in [wait] wakes up without a notification. *)
Inductive Event : Type :=
| Step (t : thread_id)
| SpuriousWakeup (t : thread_id).

Definition machine_step (ev : Event) (m : Machine) : Machine :=
  match ev with
  | Step t =>
      match threads m !! t with
      | None => m
      | Some th =>
          match step_thread t (object m) (delivered m) th with
          | None => m
          | Some (self', log', th') =>
              {| object := self';
                 threads := <[t := th']> (threads m);
                 delivered := log' |}
          end
      end
  | SpuriousWakeup t =>
      {| object :=
           set_condition_variable (object m)
             (filter (fun t' => t' ≠ t)
                (received_message_condition_variable_ (object m)));
         threads := threads m;
         delivered := delivered m |}
  end.

Definition schedule (evs : list Event) (m : Machine) : Machine :=
  foldl (fun m ev => machine_step ev m) m evs.

(** A thread that has not started: its scheduler state is freshly
    allocated. *)
Definition spawn (calls : list Call) : Thread :=
  {| pc := pc_idle;
     pending := calls;
     scheduler_state := AllocateAbstractState;
     waits_returned := [] |}.

(** The machine right after construction of [self], one thread per list of
    calls. *)
Definition boot (self : RosSubscriberSystem) (programs : list (list Call))
  : Machine :=
  {| object := self; threads := spawn <$> programs; delivered := [] |}.

(** * Properties *)

(** ** Arithmetic of [int] *)

Lemma wrap_in_range (z : Z) : Int.in_range (Int.wrap z).
Proof.
  unfold Int.in_range, Int.wrap, Int.INT_MIN, Int.INT_MAX, Int.modulus,
    Int.width.
  pose proof (Z.mod_pos_bound (z - - 2 ^ (32 - 1)) (2 ^ 32) eq_refl). lia.
Qed.

Lemma wrap_small (z : Z) : Int.in_range z -> Int.wrap z = z.
Proof.
  unfold Int.in_range, Int.wrap, Int.INT_MIN, Int.INT_MAX, Int.modulus,
    Int.width.
  intros H. rewrite Z.mod_small; lia.
Qed.

Lemma wrap_add_wrap (a b : Z) : Int.wrap (Int.wrap a + b) = Int.wrap (a + b).
Proof.
  unfold Int.wrap.
  replace ((a - Int.INT_MIN) mod Int.modulus + Int.INT_MIN + b - Int.INT_MIN)
    with ((a - Int.INT_MIN) mod Int.modulus + b) by lia.
  replace (a + b - Int.INT_MIN) with ((a - Int.INT_MIN) + b) by lia.
  by rewrite Zplus_mod_idemp_l.
Qed.

Lemma incr_below_max (i : Z) :
  Int.INT_MIN <= i < Int.INT_MAX -> Int.incr i = i + 1.
Proof.
  intros H. unfold Int.incr. apply wrap_small. unfold Int.in_range. lia.
Qed.

Lemma incr_at_max : Int.incr Int.INT_MAX = Int.INT_MIN.
Proof. reflexivity. Qed.

(** ** Deliveries in a row *)

Lemma deliver_all_snoc (self : RosSubscriberSystem)
    (messages : list RosMessage) (message : RosMessage) :
  deliver_all self (messages ++ [message])
  = HandleMessage (deliver_all self messages) message.
Proof. unfold deliver_all. by rewrite foldl_app. Qed.

Lemma deliver_all_count (self : RosSubscriberSystem)
    (messages : list RosMessage) :
  Int.in_range (received_message_count_ self) ->
  received_message_count_ (deliver_all self messages)
  = Int.wrap (received_message_count_ self + Z.of_nat (length messages)).
Proof.
  intros Hrange.
  induction messages as [|message messages IH] using rev_ind.
  - cbn. rewrite Z.add_0_r. symmetry. by apply wrap_small.
  - rewrite deliver_all_snoc, length_app. cbn [HandleMessage received_message_count_].
    rewrite IH. unfold Int.incr. rewrite wrap_add_wrap. f_equal. cbn [length]. lia.
Qed.

Lemma deliver_all_message (self : RosSubscriberSystem)
    (messages : list RosMessage) :
  received_message_ (deliver_all self messages)
  = List.last messages (received_message_ self).
Proof.
  induction messages as [|message messages IH] using rev_ind; [done|].
  rewrite deliver_all_snoc. cbn [HandleMessage received_message_].
  by rewrite List.last_last.
Qed.

Lemma deliver_all_count_small (self : RosSubscriberSystem)
    (messages : list RosMessage) :
  0 <= received_message_count_ self ->
  received_message_count_ self + Z.of_nat (length messages) <= Int.INT_MAX ->
  received_message_count_ (deliver_all self messages)
  = received_message_count_ self + Z.of_nat (length messages).
Proof.
  intros H0 Hmax. rewrite deliver_all_count.
  - apply wrap_small. unfold Int.in_range, Int.INT_MIN. cbn. lia.
  - unfold Int.in_range, Int.INT_MIN. cbn. lia.
Qed.

Lemma wrap_congruent (z : Z) : (Int.wrap z - z) mod 2 ^ 32 = 0.
Proof.
  unfold Int.wrap, Int.modulus, Int.width.
  pose proof (Z.div_mod (z - Int.INT_MIN) (2 ^ 32) ltac:(lia)) as H.
  replace ((z - Int.INT_MIN) mod 2 ^ 32 + Int.INT_MIN - z)
    with (- ((z - Int.INT_MIN) / 2 ^ 32) * 2 ^ 32) by lia.
  apply Z_mod_mult.
Qed.

(** C10.  The delivery counter is a 32-bit [int]: a delivery stores the
    incremented value wrapped into the range of [int] (congruent to the
    increment modulo 2^32).  Starting from the constructor's 0 the counter
    equals the number of deliveries for the first 2^31 - 1 of them; it then
    holds [INT_MAX], and the next delivery leaves it at -2^31, negative and
    smaller than before. *)
Theorem delivery_counter_wraps_at_INT_MAX (self : RosSubscriberSystem)
    (messages : list RosMessage) (message : RosMessage) :
  received_message_count_ self = 0 ->
  Z.of_nat (length messages) = 2 ^ 31 - 1 ->
  (forall (s : RosSubscriberSystem) (m : RosMessage),
      received_message_count_ (HandleMessage s m)
      = Int.incr (received_message_count_ s)
      /\ Int.in_range (received_message_count_ (HandleMessage s m))
      /\ (received_message_count_ (HandleMessage s m)
          - (received_message_count_ s + 1)) mod 2 ^ 32 = 0)
  /\ (forall k : nat,
        (k <= length messages)%nat ->
        received_message_count_ (deliver_all self (take k messages))
        = Z.of_nat k)
  /\ received_message_count_ (deliver_all self messages) = Int.INT_MAX
  /\ received_message_count_
       (HandleMessage (deliver_all self messages) message) = - 2 ^ 31
  /\ received_message_count_
       (HandleMessage (deliver_all self messages) message) < 0
  /\ received_message_count_
       (HandleMessage (deliver_all self messages) message)
     < received_message_count_ (deliver_all self messages).
Proof.
  intros Hfresh Hlen.
  assert (Hfull : received_message_count_ (deliver_all self messages)
                  = Int.INT_MAX).
  { rewrite deliver_all_count_small; rewrite Hfresh; [|done|];
      rewrite Hlen; unfold Int.INT_MAX, Int.width; lia. }
  assert (Hnext : received_message_count_
                    (HandleMessage (deliver_all self messages) message)
                  = - 2 ^ 31).
  { cbn [HandleMessage received_message_count_]. rewrite Hfull.
    apply incr_at_max. }
  split; [|split; [|split; [|split; [|split]]]].
  - intros s m. cbn [HandleMessage received_message_count_].
    split; [done|]. split; [apply wrap_in_range|apply wrap_congruent].
  - intros k Hk. rewrite deliver_all_count_small; rewrite Hfresh;
      rewrite ?length_take; unfold Int.INT_MAX, Int.width; lia.
  - exact Hfull.
  - exact Hnext.
  - rewrite Hnext. lia.
  - rewrite Hnext, Hfull. unfold Int.INT_MAX, Int.width. lia.
Qed.

(** ** Contexts of this system *)

Lemma snapshot_pair_inv (a : AbstractValues) (message : RosMessage)
    (count : Z) :
  snapshot_pair a = Some (message, count) ->
  a = [Value_RosMessage message; Value_int count].
Proof.
  destruct a as [|[m|i] [|[m'|i'] [|? ?]]]; cbn; intros H; try discriminate.
  by inversion H.
Qed.

Lemma Process_on_pair (self : RosSubscriberSystem) (a : AbstractValues)
    (message : RosMessage) (count : Z) :
  snapshot_pair a = Some (message, count) ->
  ProcessMessageAndStoreToAbstractState self a
  = Some [Value_RosMessage (received_message_ self);
          Value_int (received_message_count_ self)].
Proof. intros H. by rewrite (snapshot_pair_inv _ _ _ H). Qed.

Lemma run_snoc (ops : list Operation) (op : Operation) (w : World) :
  run (ops ++ [op]) w = run ops w ≫= exec op.
Proof.
  revert w. induction ops as [|op' ops IH]; intros w; cbn.
  - by destruct (exec op w).
  - destruct (exec op' w); cbn; [apply IH|done].
Qed.

Lemma deliveries_nonneg (ops : list Operation) : 0 <= deliveries ops.
Proof. unfold deliveries. lia. Qed.

Lemma deliveries_snoc (ops : list Operation) (op : Operation) :
  deliveries (ops ++ [op])
  = deliveries ops + (if is_deliver op then 1 else 0).
Proof.
  unfold deliveries. rewrite List.filter_app, length_app.
  destruct op; cbn; lia.
Qed.

(** What holds of every world the simulator can reach: the abstract state
    is a (message, counter) pair; the live counter is the number of
    deliveries, wrapped; the snapshot counter is the live counter of some
    earlier moment. *)
Definition world_invariant (ops : list Operation) (w : World) : Prop :=
  ∃ (message : RosMessage) (count k : Z),
    snapshot_pair (abstract_state (get_state (the_context w)))
      = Some (message, count)
    ∧ received_message_count_ (the_system w) = Int.wrap (deliveries ops)
    ∧ 0 <= k <= deliveries ops
    ∧ count = Int.wrap k.

Lemma exec_invariant (ops : list Operation) (op : Operation) (w w' : World) :
  world_invariant ops w -> exec op w = Some w' ->
  world_invariant (ops ++ [op]) w'.
Proof.
  intros (message & count & k & Hpair & Hlive & Hk & Hcount) Hexec.
  pose proof (deliveries_snoc ops op) as Hd.
  unfold world_invariant. rewrite Hd. clear Hd.
  destruct op; cbn [exec] in Hexec; cbn [is_deliver]; rewrite ?Z.add_0_r.
  - inversion Hexec; subst w'; clear Hexec.
    exists message, count, k. cbn. split_and!; [done| |lia|lia|done].
    rewrite Hlive. unfold Int.incr. by rewrite wrap_add_wrap.
  - destruct (DoCalcNextUpdateTime _ _ _ _); [|done].
    inversion Hexec; subst w'. by exists message, count, k.
  - unfold DoCalcUnrestrictedUpdate in Hexec.
    rewrite (Process_on_pair _ _ _ _ Hpair) in Hexec.
    inversion Hexec; subst w'; clear Hexec.
    exists (received_message_ (the_system w)),
      (received_message_count_ (the_system w)), (deliveries ops).
    cbn. split_and!; [done|done|apply deliveries_nonneg|lia|done].
  - unfold SetDefaultState in Hexec.
    rewrite (Process_on_pair _ _ _ _ Hpair) in Hexec.
    inversion Hexec; subst w'; clear Hexec.
    exists (received_message_ (the_system w)),
      (received_message_count_ (the_system w)), (deliveries ops).
    cbn. split_and!; [done|done|apply deliveries_nonneg|lia|done].
  - inversion Hexec; subst w'; clear Hexec. by exists message, count, k.
  - destruct (CalcOutputValue _ _); [|done].
    inversion Hexec; subst w'. by exists message, count, k.
Qed.

Lemma run_invariant (ops0 ops : list Operation) (w w' : World) :
  world_invariant ops0 w -> run ops w = Some w' ->
  world_invariant (ops0 ++ ops) w'.
Proof.
  revert ops0 w. induction ops as [|op ops IH]; intros ops0 w Hinv Hrun.
  - cbn in Hrun. inversion Hrun; subst. by rewrite app_nil_r.
  - cbn in Hrun. destruct (exec op w) as [w1|] eqn:Hexec; [|done].
    cbn in Hrun. replace (ops0 ++ op :: ops) with ((ops0 ++ [op]) ++ ops)
      by (by rewrite <- app_assoc).
    eapply IH; [|exact Hrun]. by eapply exec_invariant.
Qed.

Lemma reachable_invariant (ops : list Operation) (w : World) :
  reachable_by ops w -> world_invariant ops w.
Proof.
  intros (topic & nh & self & xc & xd & Hnew & Hrun).
  refine (run_invariant [] ops _ w _ Hrun).
  inversion Hnew; subst self; clear Hnew.
  exists RosMessage_default, 0, 0. cbn. split_and!; done.
Qed.

Lemma run_app (ops ops' : list Operation) (w : World) :
  run (ops ++ ops') w = run ops w ≫= run ops'.
Proof.
  revert w. induction ops as [|op ops IH]; intros w; cbn; [done|].
  destruct (exec op w); cbn; [apply IH|done].
Qed.

Lemma run_deliveries (messages : list RosMessage) (w : World) :
  run (Deliver <$> messages) w
  = Some {| the_system := deliver_all (the_system w) messages;
            the_context := the_context w |}.
Proof.
  revert w. induction messages as [|message messages IH]; intros w.
  - by destruct w.
  - cbn. by rewrite IH.
Qed.

Lemma exec_total (ops : list Operation) (op : Operation) (w : World) :
  world_invariant ops w -> is_Some (exec op w).
Proof.
  intros (message & count & k & Hpair & _).
  pose proof (snapshot_pair_inv _ _ _ Hpair) as Ha.
  destruct op; cbn [exec]; try done.
  - unfold DoCalcNextUpdateTime, GetMessageCount, get_abstract_state_int.
    rewrite Ha. cbn. by case_decide.
  - unfold DoCalcUnrestrictedUpdate. by rewrite (Process_on_pair _ _ _ _ Hpair).
  - unfold SetDefaultState. by rewrite (Process_on_pair _ _ _ _ Hpair).
  - unfold CalcOutputValue. by rewrite Ha.
Qed.

(** C1.  In every world the simulator can reach, the value computed for the
    output port is the message held in abstract-state slot
    [kStateIndexMessage] of the context.  [CalcOutputValue] takes the context
    and the output box and nothing of the object: whatever the object holds,
    and however many messages are delivered into [received_message_]
    afterwards, the output is the same, and evaluating it changes nothing. *)
Theorem output_is_the_snapshot_payload (w : World) (previous : RosMessage)
    (messages : list RosMessage) :
  reachable w ->
  ∃ payload : RosMessage,
    get_value (abstract_state (get_state (the_context w))) kStateIndexMessage
      = Some (Value_RosMessage payload)
    ∧ CalcOutputValue (the_context w) (Value_RosMessage previous)
      = Some (Value_RosMessage payload)
    ∧ exec CalcOutput w = Some w
    ∧ (∀ self' : RosSubscriberSystem,
         exec CalcOutput {| the_system := self'; the_context := the_context w |}
         = Some {| the_system := self'; the_context := the_context w |})
    ∧ ∃ w' : World,
        run (Deliver <$> messages) w = Some w'
        ∧ received_message_ (the_system w')
          = List.last messages (received_message_ (the_system w))
        ∧ CalcOutputValue (the_context w') (Value_RosMessage previous)
          = Some (Value_RosMessage payload).
Proof.
  intros [ops Hreach].
  destruct (reachable_invariant _ _ Hreach)
    as (payload & count & k & Hpair & _).
  pose proof (snapshot_pair_inv _ _ _ Hpair) as Ha.
  assert (Hout : ∀ out : RosMessage,
             CalcOutputValue (the_context w) (Value_RosMessage out)
             = Some (Value_RosMessage payload)).
  { intros out. unfold CalcOutputValue. by rewrite Ha. }
  exists payload. split_and!.
  - by rewrite Ha.
  - apply Hout.
  - cbn [exec]. unfold AllocateOutputValue. by rewrite Hout.
  - intros self'. cbn [exec the_context]. unfold AllocateOutputValue.
    by rewrite Hout.
  - eexists. split; [apply run_deliveries|]. cbn [the_system the_context].
    split; [apply deliver_all_message|apply Hout].
Qed.

(** C7.  The constructor aborts exactly when [node_handle] is null; with a
    node handle it returns an object.  In a world the simulator can reach no
    operation throws: polling, committing, resetting the state, evaluating
    the output and reading the message count all return. *)
Theorem construction_aborts_iff_node_handle_is_null (topic : string)
    (node_handle : option NodeHandle) :
  (new_RosSubscriberSystem topic node_handle = Aborted ↔ node_handle = None)
  ∧ (Make topic node_handle = Aborted ↔ node_handle = None)
  ∧ (∀ nh : NodeHandle,
       ∃ self, new_RosSubscriberSystem topic (Some nh) = Returned self)
  ∧ (∀ (w : World) (op : Operation), reachable w → is_Some (exec op w))
  ∧ (∀ w : World, reachable w → is_Some (GetMessageCount (the_context w))).
Proof.
  split_and!.
  - destruct node_handle; cbn; split; done.
  - destruct node_handle; cbn; split; done.
  - intros nh. by eexists.
  - intros w op [ops Hreach].
    eapply exec_total, reachable_invariant, Hreach.
  - intros w [ops Hreach].
    destruct (reachable_invariant _ _ Hreach) as (m & c & k & Hpair & _).
    unfold GetMessageCount, get_abstract_state_int.
    by rewrite (snapshot_pair_inv _ _ _ Hpair).
Qed.

Lemma assign_RosMessage_frame (a a' : AbstractValues) (i : nat)
    (m : RosMessage) :
  assign_RosMessage a i m = Some a' ->
  length a' = length a ∧ ∀ j : nat, j ≠ i -> a' !! j = a !! j.
Proof.
  unfold assign_RosMessage. destruct (get_value a i) as [[?|?]|]; [|done..].
  intros [= <-]. split; [apply length_insert|].
  intros j Hj. by apply list_lookup_insert_ne.
Qed.

Lemma assign_int_frame (a a' : AbstractValues) (i : nat) (z : Z) :
  assign_int a i z = Some a' ->
  length a' = length a ∧ ∀ j : nat, j ≠ i -> a' !! j = a !! j.
Proof.
  unfold assign_int. destruct (get_value a i) as [[?|?]|]; [done| |done].
  intros [= <-]. split; [apply length_insert|].
  intros j Hj. by apply list_lookup_insert_ne.
Qed.

(** C9.  A commit that returns leaves the continuous state, the discrete
    state, the number of abstract-state slots and every slot other than
    [kStateIndexMessage] and [kStateIndexMessageCount] as they were; at the
    level of the simulator it leaves the object and the time alone too.  A
    poll leaves the whole world as it was. *)
Theorem commit_writes_two_slots_and_poll_none (self : RosSubscriberSystem)
    (context : Context) (events : list UnrestrictedUpdateEvent)
    (state state' : State) :
  DoCalcUnrestrictedUpdate self context events state = Some state' ->
  continuous_state state' = continuous_state state
  ∧ discrete_state state' = discrete_state state
  ∧ length (abstract_state state') = length (abstract_state state)
  ∧ (∀ i : nat,
       i ≠ kStateIndexMessage → i ≠ kStateIndexMessageCount →
       abstract_state state' !! i = abstract_state state !! i)
  ∧ (∀ w w' : World,
       exec CalcUnrestrictedUpdate w = Some w' →
       the_system w' = the_system w
       ∧ get_time (the_context w') = get_time (the_context w))
  ∧ (∀ w w' : World, exec CalcNextUpdateTime w = Some w' → w' = w).
Proof.
  unfold DoCalcUnrestrictedUpdate, ProcessMessageAndStoreToAbstractState.
  intros H.
  destruct (assign_RosMessage (abstract_state state) kStateIndexMessage
              (received_message_ self)) as [a1|] eqn:H1; [|done].
  cbn in H.
  destruct (assign_int a1 kStateIndexMessageCount
              (received_message_count_ self)) as [a2|] eqn:H2; [|done].
  cbn in H. inversion H; subst state'; clear H. cbn.
  destruct (assign_RosMessage_frame _ _ _ _ H1) as [Hl1 Hf1].
  destruct (assign_int_frame _ _ _ _ H2) as [Hl2 Hf2].
  split_and!; [done|done|congruence| | |].
  - intros i Hi0 Hi1. rewrite Hf2, Hf1; done.
  - intros w w' Hexec. cbn [exec] in Hexec.
    destruct (DoCalcUnrestrictedUpdate _ _ _ _); [|done].
    by inversion Hexec.
  - intros w w' Hexec. cbn [exec] in Hexec.
    destruct (DoCalcNextUpdateTime _ _ _ _); [|done].
    by inversion Hexec.
Qed.

(** ** Polling *)

Lemma DoCalcNextUpdateTime_on_pair (self : RosSubscriberSystem)
    (context : Context) (events : CompositeEventCollection) (time : float)
    (message : RosMessage) (count : Z) :
  snapshot_pair (abstract_state (get_state context)) = Some (message, count) ->
  GetMessageCount context = Some count
  ∧ DoCalcNextUpdateTime self context events time
    = Some (if decide (count ≠ received_message_count_ self)
            then (add_unrestricted_update_event events
                    {| get_trigger_type := kTimed |},
                  (get_time context + 0.0001)%float)
            else (events, time)).
Proof.
  intros Hpair. pose proof (snapshot_pair_inv _ _ _ Hpair) as Ha.
  unfold DoCalcNextUpdateTime, GetMessageCount, get_abstract_state_int.
  rewrite Ha. cbn. split; [done|]. by case_decide.
Qed.

Lemma add_event_grows (events : CompositeEventCollection)
    (e : UnrestrictedUpdateEvent) :
  length (unrestricted_update_events (add_unrestricted_update_event events e))
  = S (length (unrestricted_update_events events)).
Proof. cbn. rewrite length_app. cbn. lia. Qed.

(** C2, as the code has it.  In every world the simulator can reach the
    snapshot counter is readable, and as long as no more than [INT_MAX]
    messages have been delivered it is at most the live counter; whatever
    the number of deliveries, [DoCalcNextUpdateTime] adds one unrestricted
    update event (and nothing else) when the two counters differ and leaves
    the event collection and the time untouched when they are equal. *)
Theorem snapshot_counter_at_most_live_counter (ops : list Operation)
    (w : World) (events : CompositeEventCollection) (time : float) :
  reachable_by ops w ->
  ∃ (last_message_count : Z) (events' : CompositeEventCollection)
    (time' : float),
    GetMessageCount (the_context w) = Some last_message_count
    ∧ (deliveries ops <= Int.INT_MAX →
       last_message_count <= received_message_count_ (the_system w))
    ∧ DoCalcNextUpdateTime (the_system w) (the_context w) events time
      = Some (events', time')
    ∧ (last_message_count ≠ received_message_count_ (the_system w) →
       events' = add_unrestricted_update_event events
                   {| get_trigger_type := kTimed |})
    ∧ (last_message_count = received_message_count_ (the_system w) →
       events' = events ∧ time' = time)
    ∧ (last_message_count ≠ received_message_count_ (the_system w) ↔
       length (unrestricted_update_events events')
       = S (length (unrestricted_update_events events))).
Proof.
  intros Hreach.
  destruct (reachable_invariant _ _ Hreach)
    as (message & count & k & Hpair & Hlive & Hk & Hcount).
  destruct (DoCalcNextUpdateTime_on_pair (the_system w) (the_context w)
              events time _ _ Hpair) as [Hget Hpoll].
  exists count.
  destruct (decide (count ≠ received_message_count_ (the_system w)))
    as [Hne|Heq].
  - eexists _, _. split_and!; [exact Hget| |exact Hpoll|done|done|].
    + intros Hmax. rewrite Hlive, Hcount.
      rewrite !wrap_small; unfold Int.in_range, Int.INT_MIN; cbn; lia.
    + split; [intros _; apply add_event_grows|done].
  - apply dec_stable in Heq.
    eexists _, _. split_and!; [exact Hget|lia|exact Hpoll|done|done|].
    split; [done|]. intros Hlen. lia.
Qed.

(** C3, as the code has it.  Take an object whose counter is 0 and a context
    whose snapshot counter is 0, and deliver N messages, 1 <= N <= INT_MAX,
    with no poll or commit in between.  While they are delivered the context
    does not change.  A poll then adds exactly one unrestricted update
    event, and a commit leaves in the abstract state the last message
    delivered and the counter N, and nothing else. *)
Theorem commit_after_N_deliveries (w : World) (messages : list RosMessage)
    (message0 : RosMessage) :
  received_message_count_ (the_system w) = 0 ->
  snapshot_pair (abstract_state (get_state (the_context w)))
    = Some (message0, 0) ->
  (1 <= length messages)%nat ->
  Z.of_nat (length messages) <= Int.INT_MAX ->
  ∃ (w1 w2 : World) (time' : float),
    run (Deliver <$> messages) w = Some w1
    ∧ (∀ k : nat,
         ∃ wk, run (Deliver <$> take k messages) w = Some wk
               ∧ the_context wk = the_context w)
    ∧ the_context w1 = the_context w
    ∧ DoCalcNextUpdateTime (the_system w1) (the_context w1) no_events infinity
      = Some (add_unrestricted_update_event no_events
                {| get_trigger_type := kTimed |}, time')
    ∧ unrestricted_update_events
        (add_unrestricted_update_event no_events
           {| get_trigger_type := kTimed |})
      = [ {| get_trigger_type := kTimed |} ]
    ∧ exec CalcUnrestrictedUpdate w1 = Some w2
    ∧ abstract_state (get_state (the_context w2))
      = [Value_RosMessage (List.last messages message0);
         Value_int (Z.of_nat (length messages))].
Proof.
  intros Hzero Hpair Hlen1 Hlen2.
  assert (Hcount : received_message_count_
                     (deliver_all (the_system w) messages)
                   = Z.of_nat (length messages)).
  { rewrite deliver_all_count_small; lia. }
  eexists _, _, _. split_and!.
  - apply run_deliveries.
  - intros k. eexists. split; [apply run_deliveries|done].
  - done.
  - cbn [the_system the_context].
    destruct (DoCalcNextUpdateTime_on_pair
                (deliver_all (the_system w) messages) (the_context w)
                no_events infinity _ _ Hpair) as [_ ->].
    rewrite Hcount. rewrite decide_True by lia. done.
  - done.
  - cbn [exec the_system the_context]. unfold DoCalcUnrestrictedUpdate.
    rewrite (Process_on_pair _ _ _ _ Hpair). done.
  - cbn. rewrite Hcount, deliver_all_message. f_equal. f_equal.
    destruct messages as [|m messages]; [cbn in Hlen1; lia|].
    clear. revert m. induction messages as [|m' messages IH]; intros m; [done|].
    cbn [List.last]. cbn [List.last] in IH. apply IH.
Qed.

(** ** Threads: what every interleaving preserves *)

(** The program points at which a thread owns the mutex. *)
Definition holds_mutex (p : ProgramCounter) : bool :=
  match p with
  | HandleMessage_store _ | HandleMessage_count | HandleMessage_notify
  | HandleMessage_unlock
  | Process_message | Process_count | Process_unlock
  | WaitForMessage_test _ | WaitForMessage_read _
  | WaitForMessage_unlock _ _ => true
  | _ => false
  end.

(** The pair the most recent delivery wrote; before the first delivery, the
    pair the constructor left. *)
Definition latest (log : list (RosMessage * Z)) : RosMessage * Z :=
  List.last log (RosMessage_default, 0).

(** A scheduler state is consistent when it holds a pair that one delivery
    wrote (or the constructor's pair). *)
Definition consistent (log : list (RosMessage * Z)) (a : AbstractValues)
  : Prop :=
  ∃ pair, snapshot_pair a = Some pair ∧ pair ∈ (RosMessage_default, 0) :: log.

Record thread_invariant (self : RosSubscriberSystem)
    (log : list (RosMessage * Z)) (t : thread_id) (th : Thread) : Prop := {
  inv_mutex :
    holds_mutex (pc th) = true ↔ received_message_mutex_ self = Some t;
  inv_not_thrown : pc th ≠ pc_thrown;
  inv_mid_copy :
    pc th = Process_count →
    ∃ c, scheduler_state th = [Value_RosMessage (latest log).1; Value_int c];
  inv_consistent :
    pc th ≠ Process_count → consistent log (scheduler_state th);
  inv_read :
    ∀ old, pc th = WaitForMessage_read old →
           old ≠ received_message_count_ self;
  inv_unlock :
    ∀ old new, pc th = WaitForMessage_unlock old new →
               old ≠ new ∧ new = received_message_count_ self;
  inv_returned : Forall (λ r : Z * Z, r.1 ≠ r.2) (waits_returned th)
}.

Definition machine_invariant (m : Machine) : Prop :=
  (∀ t th, threads m !! t = Some th →
           thread_invariant (object m) (delivered m) t th)
  ∧ received_message_count_ (object m) = (latest (delivered m)).2
  ∧ ((∀ t th, threads m !! t = Some th → pc th ≠ HandleMessage_count) →
     received_message_ (object m) = (latest (delivered m)).1).

Lemma latest_snoc (log : list (RosMessage * Z)) (x : RosMessage * Z) :
  latest (log ++ [x]) = x.
Proof. apply List.last_last. Qed.

Lemma consistent_mono (log log' : list (RosMessage * Z))
    (a : AbstractValues) :
  consistent log a -> log `prefix_of` log' -> consistent log' a.
Proof.
  intros (pair & Hpair & Hin) [rest ->]. exists pair. split; [done|].
  rewrite app_comm_cons. apply elem_of_app. by left.
Qed.

(** A thread that did not move keeps its invariant when the log grows, the
    ownership of the mutex by that thread is unchanged, and, if it owns the
    mutex, counter and latest pair are unchanged. *)
Lemma thread_invariant_frame (self self' : RosSubscriberSystem)
    (log log' : list (RosMessage * Z)) (t : thread_id) (th : Thread) :
  thread_invariant self log t th ->
  log `prefix_of` log' ->
  (received_message_mutex_ self' = Some t
   ↔ received_message_mutex_ self = Some t) ->
  (received_message_mutex_ self = Some t →
   received_message_count_ self' = received_message_count_ self
   ∧ log' = log) ->
  thread_invariant self' log' t th.
Proof.
  intros [Hmutex Hthrown Hmid Hcons Hread Hunlock Hret] Hlog Hown Hsame.
  split; try done.
  - by rewrite Hown.
  - intros Hpc. destruct (Hmid Hpc) as [c Hc].
    destruct Hsame as [_ ->]; [|by exists c].
    apply Hmutex. by rewrite Hpc.
  - intros Hpc. eapply consistent_mono; eauto.
  - intros old Hpc. destruct Hsame as [-> _]; [|by apply Hread].
    apply Hmutex. by rewrite Hpc.
  - intros old new Hpc. destruct Hsame as [-> _]; [|by apply Hunlock].
    apply Hmutex. by rewrite Hpc.
Qed.

Lemma boot_invariant (topic : string) (node_handle : NodeHandle)
    (self : RosSubscriberSystem) (programs : list (list Call)) :
  new_RosSubscriberSystem topic (Some node_handle) = Returned self ->
  machine_invariant (boot self programs).
Proof.
  intros [= <-]. split_and!; [|done|done].
  intros t th Hth. cbn in Hth.
  apply list_lookup_fmap_Some_1 in Hth as (calls & -> & _).

  split; cbn; try done.
  intros _. exists (RosMessage_default, 0). split; [done|].
  apply elem_of_cons. by left.
Qed.

Lemma latest_in (log : list (RosMessage * Z)) :
  latest log ∈ (RosMessage_default, 0) :: log.
Proof.
  induction log as [|x log IH] using rev_ind.
  - apply elem_of_cons. by left.
  - rewrite latest_snoc, app_comm_cons. apply elem_of_app. right.
    apply elem_of_cons. by left.
Qed.

Lemma consistent_inv (log : list (RosMessage * Z)) (a : AbstractValues) :
  consistent log a ->
  ∃ message count, a = [Value_RosMessage message; Value_int count].
Proof.
  intros ([message count] & Hpair & _). exists message, count.
  by apply snapshot_pair_inv.
Qed.

(** While one thread owns the mutex no other thread is at a program point
    that needs it. *)
Lemma others_outside (self : RosSubscriberSystem)
    (log : list (RosMessage * Z)) (ths : list Thread) (t t' : thread_id)
    (th th' : Thread) :
  (∀ t th, ths !! t = Some th → thread_invariant self log t th) ->
  ths !! t = Some th -> holds_mutex (pc th) = true ->
  ths !! t' = Some th' -> t' ≠ t ->
  holds_mutex (pc th') = false.
Proof.
  intros Hall Ht Hholds Ht' Hne.
  destruct (holds_mutex (pc th')) eqn:Hholds'; [|done].
  apply (inv_mutex _ _ _ _ (Hall _ _ Ht)) in Hholds.
  apply (inv_mutex _ _ _ _ (Hall _ _ Ht')) in Hholds'.
  congruence.
Qed.

(** The owner of the mutex, unless it is itself between storing the message
    and counting it, finds the latest pair in the object. *)
Lemma owner_sees_latest (m : Machine) (t : thread_id) (th : Thread) :
  machine_invariant m ->
  threads m !! t = Some th -> holds_mutex (pc th) = true ->
  pc th ≠ HandleMessage_count ->
  received_message_ (object m) = (latest (delivered m)).1
  ∧ received_message_count_ (object m) = (latest (delivered m)).2.
Proof.
  intros (Hall & Hcount & Hmessage) Ht Hholds Hpc. split; [|done].
  apply Hmessage. intros t' th' Ht' Hpc'.
  destruct (decide (t' = t)) as [->|Hne]; [congruence|].
  pose proof (others_outside _ _ _ _ _ _ _ Hall Ht Hholds Ht' Hne) as Hout.
  by rewrite Hpc' in Hout.
Qed.

Lemma threads_after_step (self self' : RosSubscriberSystem)
    (log log' : list (RosMessage * Z)) (ths : list Thread) (t : thread_id)
    (th' : Thread) :
  (∀ t' th'', ths !! t' = Some th'' → thread_invariant self log t' th'') ->
  thread_invariant self' log' t th' ->
  log `prefix_of` log' ->
  (∀ t', t' ≠ t →
         (received_message_mutex_ self' = Some t'
          ↔ received_message_mutex_ self = Some t')) ->
  (∀ t', t' ≠ t → received_message_mutex_ self = Some t' →
         received_message_count_ self' = received_message_count_ self
         ∧ log' = log) ->
  ∀ t' th'', <[t := th']> ths !! t' = Some th'' →
             thread_invariant self' log' t' th''.
Proof.
  intros Hall Hnew Hlog Hown Hsame t' th'' Hlookup.
  apply list_lookup_insert_Some in Hlookup
    as [(-> & -> & _)|(Hne & Hlookup)]; [done|].
  eapply thread_invariant_frame; eauto.
Qed.

Lemma lock_inv (t : thread_id) (self self' : RosSubscriberSystem) :
  lock t self = Some self' ->
  received_message_mutex_ self = None ∧ self' = set_mutex self (Some t).
Proof.
  unfold lock. destruct (received_message_mutex_ self); [done|].
  by intros [= <-].
Qed.

(** The invariant after thread [t] moved from [th] to [th'], from what the
    step did to the object and the log. *)
Lemma rebuild_invariant (self self' : RosSubscriberSystem)
    (log log' : list (RosMessage * Z)) (ths : list Thread) (t : thread_id)
    (th th' : Thread) :
  machine_invariant {| object := self; threads := ths; delivered := log |} ->
  ths !! t = Some th ->
  thread_invariant self' log' t th' ->
  log `prefix_of` log' ->
  (received_message_mutex_ self' = received_message_mutex_ self
   ∨ (received_message_mutex_ self = None
      ∧ received_message_mutex_ self' = Some t)
   ∨ (received_message_mutex_ self = Some t
      ∧ received_message_mutex_ self' = None)) ->
  ((received_message_count_ self' = received_message_count_ self
    ∧ log' = log)
   ∨ received_message_mutex_ self = Some t) ->
  received_message_count_ self' = (latest log').2 ->
  (pc th' ≠ HandleMessage_count →
   (pc th ≠ HandleMessage_count → received_message_ self = (latest log).1) →
   received_message_ self' = (latest log').1) ->
  machine_invariant
    {| object := self'; threads := <[t := th']> ths; delivered := log' |}.
Proof.
  intros (Hall & Hcount & Hmessage) Hth Hnew Hlog Hmutex Hsame Hcount' Hmsg'.
  cbn [object threads delivered] in *.
  pose proof (lookup_lt_Some _ _ _ Hth) as Hlt.
  split_and!; cbn [object threads delivered].
  - eapply threads_after_step; eauto.
    + intros t' Hne. destruct Hmutex as [->|[[-> ->]|[-> ->]]]; [done| |].
      * split; [congruence|done].
      * split; [done|congruence].
    + intros t' Hne Hown. destruct Hsame as [?|?]; [done|congruence].
  - done.
  - intros Hnone. apply Hmsg'.
    + apply (Hnone t th'). by apply list_lookup_insert_eq.
    + intros Hpc. apply Hmessage. intros t' th'' Hlookup.
      destruct (decide (t' = t)) as [->|Hne]; [congruence|].
      apply (Hnone t' th''). by rewrite list_lookup_insert_ne.
Qed.

Lemma step_invariant (ev : Event) (m : Machine) :
  machine_invariant m -> machine_invariant (machine_step ev m).
Proof.
  intros Hinv. destruct ev as [t|t]; cbn [machine_step].
  - destruct (threads m !! t) as [th|] eqn:Hth; [|done].
    destruct (step_thread t (object m) (delivered m) th)
      as [[[self' log'] th']|] eqn:Hstep; [|done].
    pose proof Hinv as (Hall & Hcount & Hmessage).
    pose proof (Hall _ _ Hth) as Ht.
    pose proof (owner_sees_latest m t th Hinv Hth) as Hlatest.
    destruct m as [self ths log]. cbn [object threads delivered] in *.
    destruct Ht as [Hmutex Hthrown Hmid Hcons Hread Hunlock Hret].
    unfold step_thread in Hstep.
    destruct th as [p pend st wr].
    cbn [pc pending scheduler_state waits_returned at_pc] in *.
    destruct p; try done.
    all: repeat match type of Hstep with
           | context [lock ?t0 ?s0] =>
               destruct (lock t0 s0) as [s1|] eqn:Hlock;
               [apply lock_inv in Hlock as [Hfree ->]|done]
           | context [match ?l with [] => _ | _ :: _ => _ end] =>
               destruct l as [|[message| |old] rest]; [done|..]
           | context [decide ?P] => destruct (decide P)
           | context [is_blocked ?t0 ?s0] =>
               destruct (is_blocked t0 s0); [done|]
           end.
    all: cbn in Hstep.
    all: try (inversion Hstep; subst self' log' th'; clear Hstep;
              eapply rebuild_invariant; [exact Hinv|exact Hth|..];
              [split|..]; cbn;
              try done; try tauto;
              try (intros _; apply Hcons; done);
              try (intros _ Hm; apply Hm; done)).
    + (* line 185: the scheduler state stays consistent as the log grows *)
      intros _. eapply consistent_mono; [by apply Hcons|]. by eexists.
    + by eexists.
    + by rewrite latest_snoc.
    + intros _ _. by rewrite latest_snoc.
    + (* lines 173-174: the message is copied *)
      destruct (consistent_inv _ _ (Hcons ltac:(done))) as (m0 & c0 & ->).
      cbn in Hstep. inversion Hstep; subst self' log' th'; clear Hstep.
      destruct Hlatest as [Hlatest _]; [done..|].
      eapply rebuild_invariant; [exact Hinv|exact Hth|..];
        [split|..]; cbn; try done; try tauto;
        try (intros _ Hm; by apply Hm).
      intros _. exists c0. by rewrite Hlatest.
    + (* lines 175-176: the counter is copied *)
      destruct (Hmid eq_refl) as [c0 ->].
      cbn in Hstep. inversion Hstep; subst self' log' th'; clear Hstep.
      eapply rebuild_invariant; [exact Hinv|exact Hth|..];
        [split|..]; cbn; try done; try tauto;
        try (intros _ Hm; by apply Hm).
      intros _. exists (latest log). split; [|apply latest_in].
      rewrite Hcount. by destruct (latest log).
    + intros old' [= <-]. done.
    + intros old' new' [= <- <-]. split; [by apply Hread|done].
    + apply Forall_app. split; [done|]. constructor; [|done].
      apply (Hunlock _ _ eq_refl).
  - (* a spurious wake-up touches the condition variable only *)
    destruct Hinv as (Hall & Hcount & Hmessage). split_and!; [|done|done].
    intros t' th Hth. cbn [object threads delivered] in *.
    destruct (Hall _ _ Hth). by split.
Qed.

Lemma schedule_invariant (evs : list Event) (m : Machine) :
  machine_invariant m -> machine_invariant (schedule evs m).
Proof.
  revert m. induction evs as [|ev evs IH]; intros m Hinv; [done|].
  cbn. apply IH. by apply step_invariant.
Qed.



(** The counter and the log change together, in the statement of line 185
    and nowhere else. *)
Lemma step_counter (ev : Event) (m : Machine) :
  (delivered (machine_step ev m) = delivered m
   ∧ received_message_count_ (object (machine_step ev m))
     = received_message_count_ (object m))
  ∨ (∃ t th, ev = Step t ∧ threads m !! t = Some th
             ∧ pc th = HandleMessage_count)
    ∧ delivered (machine_step ev m)
      = delivered m
          ++ [(received_message_ (object m),
               Int.incr (received_message_count_ (object m)))]
    ∧ received_message_count_ (object (machine_step ev m))
      = Int.incr (received_message_count_ (object m)).
Proof.
  destruct ev as [t|t]; cbn [machine_step]; [|by left].
  destruct (threads m !! t) as [th|] eqn:Hth; [|by left].
  destruct (step_thread t (object m) (delivered m) th)
    as [[[self' log'] th']|] eqn:Hstep; [|by left].
  cbn [object delivered]. unfold step_thread in Hstep.
  destruct (pc th) eqn:Hpc; try done.
  all: repeat match type of Hstep with
         | context [lock ?t0 ?s0] =>
             destruct (lock t0 s0) as [s1|] eqn:Hlock;
             [apply lock_inv in Hlock as [Hfree ->]|done]
         | context [match ?l with [] => _ | _ :: _ => _ end] =>
             destruct l; [done|]
         | context [decide ?P] => destruct (decide P)
         | context [is_blocked ?t0 ?s0] =>
             destruct (is_blocked t0 s0); [done|]
         | context [assign_RosMessage ?a ?i ?v] =>
             destruct (assign_RosMessage a i v)
         | context [assign_int ?a ?i ?v] => destruct (assign_int a i v)
         end.
  all: cbn in Hstep; inversion Hstep; subst self' log' th'; clear Hstep.
  all: try (by left).
  right. split; [|done]. by exists t, th.
Qed.



(** The k-th delivery (counting from 0) logged the counter k + 1, wrapped. *)
Definition counted (log : list (RosMessage * Z)) : Prop :=
  ∀ (k : nat) (x : RosMessage * Z),
    log !! k = Some x → x.2 = Int.wrap (Z.of_nat k + 1).

Lemma counted_latest (log : list (RosMessage * Z)) :
  counted log -> (latest log).2 = Int.wrap (Z.of_nat (length log)).
Proof.
  intros Hcounted. destruct log as [|x log _] using rev_ind; [done|].
  rewrite latest_snoc, length_app. cbn [length].
  rewrite (Hcounted (length log) x).
  - f_equal. lia.
  - rewrite lookup_app_r by lia. by rewrite Nat.sub_diag.
Qed.

Lemma step_counted (ev : Event) (m : Machine) :
  machine_invariant m -> counted (delivered m) ->
  counted (delivered (machine_step ev m)).
Proof.
  intros (_ & Hcount & _) Hcounted.
  destruct (step_counter ev m) as [[-> _]|(_ & -> & _)]; [done|].
  intros k x Hk. apply lookup_app_Some in Hk as [Hk|[Hge Hk]].
  - by apply Hcounted.
  - destruct (k - length (delivered m))%nat as [|n] eqn:Hn; [|done].
    cbn in Hk. inversion Hk; subst x; clear Hk. cbn.
    rewrite Hcount, (counted_latest _ Hcounted). unfold Int.incr.
    rewrite wrap_add_wrap. f_equal. lia.
Qed.

Lemma schedule_counted (evs : list Event) (m : Machine) :
  machine_invariant m -> counted (delivered m) ->
  counted (delivered (schedule evs m)).
Proof.
  revert m. induction evs as [|ev evs IH]; intros m Hinv Hcounted; [done|].
  cbn. apply IH; [by apply step_invariant|by apply step_counted].
Qed.

(** ** One thread running alone *)

(** [n] consecutive steps of thread [t], seen from the thread. *)
Fixpoint solo (t : thread_id) (n : nat) (self : RosSubscriberSystem)
    (log : list (RosMessage * Z)) (th : Thread)
  : RosSubscriberSystem * list (RosMessage * Z) * Thread :=
  match n with
  | O => (self, log, th)
  | S n' =>
      match step_thread t self log th with
      | Some (self', log', th') => solo t n' self' log' th'
      | None => solo t n' self log th
      end
  end.

Lemma solo_schedule (t : thread_id) (n : nat) (m : Machine) (th : Thread) :
  threads m !! t = Some th ->
  schedule (repeat (Step t) n) m
  = {| object := (solo t n (object m) (delivered m) th).1.1;
       threads := <[t := (solo t n (object m) (delivered m) th).2]> (threads m);
       delivered := (solo t n (object m) (delivered m) th).1.2 |}.
Proof.
  revert m th. induction n as [|n IH]; intros m th Hth.
  - cbn. rewrite list_insert_id by done. by destruct m.
  - cbn [repeat schedule foldl machine_step solo]. rewrite Hth.
    destruct (step_thread t (object m) (delivered m) th)
      as [[[self' log'] th']|] eqn:Hstep.
    + fold (schedule (repeat (Step t) n)
              {| object := self'; threads := <[t:=th']> (threads m);
                 delivered := log' |}).
      rewrite (IH _ th').
      * cbn [object threads delivered]. by rewrite list_insert_insert_eq.
      * cbn. apply list_lookup_insert_eq. by eapply lookup_lt_Some.
    + fold (schedule (repeat (Step t) n) m). by apply IH.
Qed.


(** A delivery run without interruption is the atomic [HandleMessage]. *)
Lemma solo_HandleMessage (t : thread_id) (self : RosSubscriberSystem)
    (log : list (RosMessage * Z)) (th : Thread) (message : RosMessage)
    (rest : list Call) :
  received_message_mutex_ self = None ->
  pc th = pc_idle -> pending th = call_HandleMessage message :: rest ->
  solo t 6 self log th
  = (HandleMessage self message,
     log ++ [(message, Int.incr (received_message_count_ self))],
     {| pc := pc_idle; pending := rest;
        scheduler_state := scheduler_state th;
        waits_returned := waits_returned th |}).
Proof.
  destruct self, th. cbn. by intros -> -> ->.
Qed.

(** A copy run without interruption is the atomic
    [ProcessMessageAndStoreToAbstractState]. *)
Lemma solo_Process (t : thread_id) (self : RosSubscriberSystem)
    (log : list (RosMessage * Z)) (th : Thread) (rest : list Call)
    (a : AbstractValues) :
  received_message_mutex_ self = None ->
  pc th = pc_idle ->
  pending th = call_ProcessMessageAndStoreToAbstractState :: rest ->
  ProcessMessageAndStoreToAbstractState self (scheduler_state th) = Some a ->
  solo t 5 self log th
  = (self, log,
     {| pc := pc_idle; pending := rest; scheduler_state := a;
        waits_returned := waits_returned th |}).
Proof.
  destruct self, th. cbn. intros -> -> ->.
  unfold ProcessMessageAndStoreToAbstractState. cbn.
  destruct (assign_RosMessage _ _ _) as [a1|]; [|done]. cbn.
  by intros ->.
Qed.




(** ** Machines that exist *)

Definition reachable_machine (m : Machine) : Prop :=
  ∃ topic node_handle self programs evs,
    new_RosSubscriberSystem topic (Some node_handle) = Returned self
    ∧ m = schedule evs (boot self programs).

Lemma reachable_machine_invariant (m : Machine) :
  reachable_machine m -> machine_invariant m ∧ counted (delivered m).
Proof.
  intros (topic & nh & self & programs & evs & Hnew & ->).
  pose proof (boot_invariant _ _ _ programs Hnew) as Hboot. split.
  - by apply schedule_invariant.
  - apply schedule_counted; [done|]. by intros k x Hk.
Qed.


(** ** A thread blocked in [WaitForMessage] *)




(** C8.  Whatever the programs of the threads and whatever the schedule:
    at most one thread is at a program point under the mutex; the log holds,
    for the k-th delivery, the message it stored with the counter it wrote
    (k, wrapped to [int]); when the mutex is free the object holds the
    latest logged pair; a thread is between copying the message and copying
    the counter only while it owns the mutex; and at every other moment the
    (message, counter) pair in its scheduler state is the constructor's pair
    or the pair of one single delivery. *)
Theorem no_torn_reads (m : Machine) :
  reachable_machine m ->
  (∀ t t' th th',
     threads m !! t = Some th → threads m !! t' = Some th' →
     holds_mutex (pc th) = true → holds_mutex (pc th') = true → t = t')
  ∧ counted (delivered m)
  ∧ (received_message_mutex_ (object m) = None →
     (received_message_ (object m), received_message_count_ (object m))
     = latest (delivered m))
  ∧ ∀ t th,
      threads m !! t = Some th →
      (pc th = Process_count → received_message_mutex_ (object m) = Some t)
      ∧ (pc th ≠ Process_count →
         ∃ pair, snapshot_pair (scheduler_state th) = Some pair
                 ∧ pair ∈ (RosMessage_default, 0) :: delivered m).
Proof.
  intros Hreach.
  destruct (reachable_machine_invariant m Hreach)
    as [(Hall & Hcount & Hmessage) Hcounted].
  split_and!.
  - intros t t' th th' Hth Hth' Hholds Hholds'.
    destruct (decide (t' = t)) as [->|Hne]; [done|].
    pose proof (others_outside _ _ _ _ _ _ _ Hall Hth Hholds Hth' Hne).
    congruence.
  - done.
  - intros Hfree. rewrite Hcount, Hmessage; [by destruct (latest _)|].
    intros t th Hth Hpc.
    pose proof (inv_mutex _ _ _ _ (Hall _ _ Hth)) as [Hown _].
    rewrite Hpc in Hown. specialize (Hown eq_refl). congruence.
  - intros t th Hth. split.
    + intros Hpc. apply (inv_mutex _ _ _ _ (Hall _ _ Hth)). by rewrite Hpc.
    + apply (inv_consistent _ _ _ _ (Hall _ _ Hth)).
Qed.



(** ** A call of [WaitForMessage] that does not wait *)









(** ** The delivery counter over the life of the object *)

Lemma exec_keeps_counter (op : Operation) (w w' : World) :
  exec op w = Some w' -> is_deliver op = false ->
  received_message_count_ (the_system w')
  = received_message_count_ (the_system w).
Proof.
  destruct op; cbn [exec is_deliver]; intros Hexec Hop; try done.
  - destruct (DoCalcNextUpdateTime _ _ _ _); [|done]. by inversion Hexec.
  - destruct (DoCalcUnrestrictedUpdate _ _ _ _); [|done]. by inversion Hexec.
  - destruct (SetDefaultState _ _ _); [|done]. by inversion Hexec.
  - by inversion Hexec.
  - destruct (CalcOutputValue _ _); [|done]. by inversion Hexec.
Qed.

Lemma reachable_counter (ops : list Operation) (w : World) :
  reachable_by ops w -> deliveries ops <= Int.INT_MAX ->
  received_message_count_ (the_system w) = deliveries ops.
Proof.
  intros Hreach Hmax.
  destruct (reachable_invariant _ _ Hreach) as (_ & _ & _ & _ & -> & _).
  apply wrap_small. pose proof (deliveries_nonneg ops).
  unfold Int.in_range, Int.INT_MIN. cbn. lia.
Qed.

Lemma reachable_by_app (ops ops' : list Operation) (w w' : World) :
  reachable_by ops w -> run ops' w = Some w' -> reachable_by (ops ++ ops') w'.
Proof.
  intros (topic & nh & self & xc & xd & Hnew & Hrun) Hrun'.
  exists topic, nh, self, xc, xd. split; [done|].
  rewrite run_app, Hrun. done.
Qed.

(** C4, as the code has it.  One delivery stores its argument as the
    message, stores the counter incremented and wrapped to [int] (the
    counter plus one whenever the counter is below [INT_MAX]) and leaves no
    thread blocked on the condition variable; a thread that runs the six
    steps of [HandleMessage] without interruption does exactly that.  The
    constructor sets the counter to 0.  No operation of the simulator other
    than a delivery changes the counter, and no step of any thread other
    than line 185 does.  Hence, as long as at most [INT_MAX] messages have
    been delivered, the counter is the number of deliveries and does not
    decrease. *)
Theorem HandleMessage_counts_one_delivery (self : RosSubscriberSystem)
    (message : RosMessage) :
  received_message_ (HandleMessage self message) = message
  ∧ received_message_count_ (HandleMessage self message)
    = Int.incr (received_message_count_ self)
  ∧ (Int.INT_MIN <= received_message_count_ self < Int.INT_MAX →
     received_message_count_ (HandleMessage self message)
     = received_message_count_ self + 1)
  ∧ (∀ t : thread_id, is_blocked t (HandleMessage self message) = false)
  ∧ (∀ (t : thread_id) (log : list (RosMessage * Z)) (th : Thread)
       (rest : list Call),
       received_message_mutex_ self = None →
       pc th = pc_idle →
       pending th = call_HandleMessage message :: rest →
       (solo t 6 self log th).1.1 = HandleMessage self message)
  ∧ (∀ (topic : string) (node_handle : NodeHandle)
       (self0 : RosSubscriberSystem),
       new_RosSubscriberSystem topic (Some node_handle) = Returned self0 →
       received_message_count_ self0 = 0)
  ∧ (∀ (op : Operation) (w w' : World),
       exec op w = Some w' → is_deliver op = false →
       received_message_count_ (the_system w')
       = received_message_count_ (the_system w))
  ∧ (∀ (ev : Event) (m : Machine),
       received_message_count_ (object (machine_step ev m))
       = received_message_count_ (object m)
       ∨ (received_message_count_ (object (machine_step ev m))
          = Int.incr (received_message_count_ (object m))
          ∧ ∃ t th, ev = Step t ∧ threads m !! t = Some th
                    ∧ pc th = HandleMessage_count))
  ∧ (∀ (ops ops' : list Operation) (w w' : World),
       reachable_by ops w → run ops' w = Some w' →
       deliveries (ops ++ ops') <= Int.INT_MAX →
       received_message_count_ (the_system w) = deliveries ops
       ∧ received_message_count_ (the_system w') = deliveries (ops ++ ops')
       ∧ received_message_count_ (the_system w)
         <= received_message_count_ (the_system w')).
Proof.
  split_and!; try done.
  - intros Hrange. cbn. by apply incr_below_max.
  - intros t log th rest Hfree Hpc Hpending.
    by rewrite (solo_HandleMessage t self log th message rest).
  - by intros topic nh self0 [= <-].
  - apply exec_keeps_counter.
  - intros ev m. destruct (step_counter ev m) as [[_ ->]|(Hat & _ & ->)].
    + by left.
    + right. done.
  - intros ops ops' w w' Hreach Hrun Hmax.
    pose proof (reachable_by_app _ _ _ _ Hreach Hrun) as Hreach'.
    assert (Hle : deliveries ops <= deliveries (ops ++ ops')).
    { unfold deliveries. rewrite List.filter_app, length_app. lia. }
    rewrite (reachable_counter _ _ Hreach) by lia.
    rewrite (reachable_counter _ _ Hreach') by lia. done.
Qed.

(** ** The refresh time

    Facts about binary64 addition of the offset. *)

Lemma literal_0_0001 : Prim2SF 0.0001 = binary64_0_0001.
Proof. reflexivity. Qed.

Lemma digits2_pos_size (p : positive) : digits2_pos p = Pos.size p.
Proof. induction p; cbn; congruence. Qed.

Lemma digits2_pos_bounds (p : positive) :
  2 ^ (Zpos (digits2_pos p) - 1) <= Zpos p < 2 ^ Zpos (digits2_pos p).
Proof.
  rewrite digits2_pos_size.
  pose proof (Pos.size_gt p) as Hgt. pose proof (Pos.size_le p) as Hle.
  apply Pos2Z.pos_lt_pos in Hgt. apply Pos2Z.pos_le_pos in Hle.
  rewrite Pos2Z.inj_pow in Hgt, Hle.
  split; [|exact Hgt].
  assert (Hpow : 2 ^ Zpos (Pos.size p) = 2 * 2 ^ (Zpos (Pos.size p) - 1)).
  { rewrite <- Z.pow_succ_r by lia. f_equal. lia. }
  rewrite Hpow in Hle. lia.
Qed.

Lemma digits2_pos_unique (p : positive) (k : Z) :
  2 ^ (k - 1) <= Zpos p < 2 ^ k -> Zpos (digits2_pos p) = k.
Proof.
  intros [Hlo Hhi]. pose proof (digits2_pos_bounds p) as [Hlo' Hhi'].
  assert (0 <= k).
  { destruct (Z.le_gt_cases 0 k); [assumption|].
    rewrite Z.pow_neg_r in Hhi by lia. lia. }
  assert (Hk : k - 1 < Zpos (digits2_pos p)).
  { apply (Z.pow_lt_mono_r_iff 2); lia. }
  assert (Hk' : Zpos (digits2_pos p) - 1 < k).
  { apply (Z.pow_lt_mono_r_iff 2); lia. }
  lia.
Qed.

Lemma iter_pos_nat {A : Type} (f : A -> A) (n : positive) (x : A) :
  SpecFloat.iter_pos f n x = Nat.iter (Pos.to_nat n) f x.
Proof.
  revert x. induction n as [n IH|n IH|]; intros x; cbn [SpecFloat.iter_pos].
  - rewrite !IH, Pos2Nat.inj_xI.
    replace (S (2 * Pos.to_nat n))%nat
      with (Pos.to_nat n + (Pos.to_nat n + 1))%nat by lia.
    rewrite !Nat.iter_add. reflexivity.
  - rewrite !IH, Pos2Nat.inj_xO.
    replace (2 * Pos.to_nat n)%nat
      with (Pos.to_nat n + Pos.to_nat n)%nat by lia.
    rewrite Nat.iter_add. reflexivity.
  - reflexivity.
Qed.


Lemma shr_1_nonneg (m : Z) (r s : bool) :
  0 <= m ->
  shr_1 {| shr_m := m; shr_r := r; shr_s := s |}
  = {| shr_m := m / 2; shr_r := Z.odd m; shr_s := r || s |}.
Proof.
  intros Hm. rewrite <- Z.div2_div.
  destruct m as [|[p|p|]|p]; try reflexivity. lia.
Qed.

Lemma sticky_step (s : Z) (j : nat) :
  0 <= s ->
  Z.testbit s (Z.of_nat j) || negb (s mod 2 ^ Z.of_nat j =? 0)
  = negb (s mod 2 ^ Z.of_nat (S j) =? 0).
Proof.
  intros Hs. rewrite Nat2Z.inj_succ, Z.pow_succ_r by lia.
  rewrite (Z.mul_comm 2), Z.rem_mul_r by lia.
  rewrite Z.testbit_odd, Z.shiftr_div_pow2 by lia.
  pose proof (Z.mod_pos_bound s (2 ^ Z.of_nat j) ltac:(lia)) as Hlow.
  rewrite <- Z.bit0_mod, Z.bit0_odd.
  destruct (Z.odd (s / 2 ^ Z.of_nat j)); cbn [Z.b2z orb negb].
  - symmetry. apply negb_true_iff, Z.eqb_neq. lia.
  - rewrite Z.mul_0_r, Z.add_0_r. reflexivity.
Qed.

Lemma iter_shr_1 (s : Z) (k : nat) :
  0 <= s ->
  Nat.iter k shr_1 {| shr_m := s; shr_r := false; shr_s := false |}
  = shifted s k.
Proof.
  intros Hs. induction k as [|k IH].
  - unfold shifted. cbn. rewrite Z.div_1_r. reflexivity.
  - rewrite Nat.iter_succ, IH. unfold shifted at 1.
    rewrite shr_1_nonneg by (apply Z.div_pos; lia).
    unfold shifted. f_equal.
    + rewrite Z.div_div by lia. f_equal.
      rewrite Nat2Z.inj_succ, Z.pow_succ_r by lia. lia.
    + rewrite Z.testbit_odd, Z.shiftr_div_pow2 by lia. reflexivity.
    + destruct k as [|j].
      * cbn. rewrite Z.mod_1_r. reflexivity.
      * apply sticky_step; assumption.
Qed.

Lemma round_nearest_even_bounds (q : Z) (l : location) :
  q <= round_nearest_even q l <= q + 1.
Proof.
  destruct l as [|[| |]]; cbn; try lia. destruct (Z.even q); lia.
Qed.

Lemma round_nearest_even_up (q : Z) :
  round_nearest_even q
    (loc_of_shr_record {| shr_m := q; shr_r := true; shr_s := true |})
  = q + 1.
Proof. reflexivity. Qed.

Lemma round_nearest_even_down (q : Z) (s : bool) :
  round_nearest_even q
    (loc_of_shr_record {| shr_m := q; shr_r := false; shr_s := s |})
  = q.
Proof. destruct s; reflexivity. Qed.

(** Rounding a mantissa that is [p] bits too long, away from the subnormal
    range: either the exponent grows by [p] and the mantissa is the truncated
    one, or one more when the bits shifted out are more than half a unit; or
    the mantissa was all ones, is rounded up to 2^53, and the exponent grows
    by [p + 1]. *)
Lemma binary_round_aux_long (sx : bool) (s : positive) (p : positive)
    (ez : Z) :
  Zpos (digits2_pos s) = 53 + Zpos p ->
  -1074 <= ez + Zpos p -> ez + Zpos p <= 971 ->
  (exists m',
     binary_round_aux 53 1024 sx (Zpos s) ez loc_Exact
     = S754_finite sx m' (ez + Zpos p)
     /\ Zpos s / 2 ^ Zpos p <= Zpos m' <= Zpos s / 2 ^ Zpos p + 1
     /\ Zpos m' < 2 ^ 53
     /\ (Z.testbit (Zpos s) (Zpos p - 1) = false ->
         Zpos m' = Zpos s / 2 ^ Zpos p)
     /\ (Z.testbit (Zpos s) (Zpos p - 1) = true ->
         Zpos s mod 2 ^ (Zpos p - 1) <> 0 ->
         Zpos m' = Zpos s / 2 ^ Zpos p + 1))
  \/ (Zpos s / 2 ^ Zpos p = 2 ^ 53 - 1
      /\ Z.testbit (Zpos s) (Zpos p - 1) = true
      /\ binary_round_aux 53 1024 sx (Zpos s) ez loc_Exact
         = if ez + Zpos p + 1 <=? 971
           then S754_finite sx 4503599627370496 (ez + Zpos p + 1)
           else S754_infinity sx).
Proof.
  intros Hdigits Hlo Hhi.
  pose proof (digits2_pos_bounds s) as [Hs_lo Hs_hi].
  rewrite Hdigits in Hs_lo, Hs_hi.
  replace (53 + Zpos p - 1) with (52 + Zpos p) in Hs_lo by lia.
  rewrite Z.pow_add_r in Hs_lo, Hs_hi by lia.
  assert (Hpow : 0 < 2 ^ Zpos p) by (apply Z.pow_pos_nonneg; lia).
  assert (Hq_lo : 2 ^ 52 <= Zpos s / 2 ^ Zpos p)
    by (apply Z.div_le_lower_bound; lia).
  assert (Hq_hi : Zpos s / 2 ^ Zpos p < 2 ^ 53)
    by (apply Z.div_lt_upper_bound; lia).
  unfold binary_round_aux, shr_fexp. cbn [Zdigits2].
  replace (fexp 53 1024 (Zpos (digits2_pos s) + ez) - ez) with (Zpos p)
    by (unfold fexp, emin; lia).
  cbn [shr shr_record_of_loc].
  rewrite iter_pos_nat, iter_shr_1 by lia.
  set (r1 := shifted (Zpos s) (Pos.to_nat p)).
  assert (Hr1 : shr_m r1 = Zpos s / 2 ^ Zpos p).
  { unfold r1, shifted. cbn [shr_m]. rewrite positive_nat_Z. reflexivity. }
  assert (Hup :
    Z.testbit (Zpos s) (Zpos p - 1) = true ->
    Zpos s mod 2 ^ (Zpos p - 1) <> 0 ->
    round_nearest_even (shr_m r1) (loc_of_shr_record r1)
    = Zpos s / 2 ^ Zpos p + 1).
  { intros Hbit Hsticky. rewrite <- Hr1. unfold r1, shifted.
    destruct (Pos.to_nat p) as [|j] eqn:Hj; [lia|].
    replace (Z.of_nat j) with (Zpos p - 1) by lia.
    rewrite Hbit. apply Z.eqb_neq in Hsticky. rewrite Hsticky.
    reflexivity. }
  assert (Hdown :
    Z.testbit (Zpos s) (Zpos p - 1) = false ->
    round_nearest_even (shr_m r1) (loc_of_shr_record r1)
    = Zpos s / 2 ^ Zpos p).
  { intros Hbit. rewrite <- Hr1. unfold r1, shifted.
    destruct (Pos.to_nat p) as [|j] eqn:Hj; [lia|].
    replace (Z.of_nat j) with (Zpos p - 1) by lia.
    rewrite Hbit. apply round_nearest_even_down. }
  pose proof (round_nearest_even_bounds (shr_m r1) (loc_of_shr_record r1))
    as Hround.
  destruct (round_nearest_even (shr_m r1) (loc_of_shr_record r1))
    as [|m'|m'] eqn:Hm'; [lia| |lia].
  cbn [Zdigits2].
  destruct (Z.eq_dec (Zpos m') 9007199254740992) as [Hcarry|Hcarry].
  - right. split; [lia|]. split.
    { destruct (Z.testbit (Zpos s) (Zpos p - 1)); [reflexivity|].
      specialize (Hdown eq_refl). lia. }
    injection Hcarry as ->.
    replace (fexp 53 1024 (Zpos (digits2_pos 9007199254740992) + (ez + Zpos p))
             - (ez + Zpos p)) with 1
      by (unfold fexp, emin; cbn [digits2_pos Pos.succ]; lia).
    cbn [shr shr_record_of_loc SpecFloat.iter_pos shr_1 shr_m].
    reflexivity.
  - left. assert (Hd : Zpos (digits2_pos m') = 53)
      by (apply digits2_pos_unique; lia).
    exists m'. split.
    + rewrite Hd.
      replace (fexp 53 1024 (53 + (ez + Zpos p)) - (ez + Zpos p)) with 0
        by (unfold fexp, emin; lia).
      cbn [shr shr_record_of_loc shr_m].
      replace (ez + Zpos p <=? 1024 - 53) with true
        by (symmetry; apply Z.leb_le; lia).
      reflexivity.
    + split; [lia|]. split; [lia|]. split.
      * intros Hbit. rewrite <- (Hdown Hbit). reflexivity.
      * intros Hbit Hsticky. rewrite <- (Hup Hbit Hsticky). reflexivity.
Qed.

Lemma iter_xO_value (m d : positive) :
  Zpos (Pos.iter xO m d) = Zpos m * 2 ^ Zpos d.
Proof.
  rewrite <- Z.shiftl_mul_pow2 by lia. cbn [Z.shiftl].
  apply (Pos.iter_swap_gen _ _ Zpos xO (Z.mul 2)). reflexivity.
Qed.

Lemma shl_align_value (m : positive) (e ez : Z) :
  ez <= e -> Zpos (fst (shl_align m e ez)) = Zpos m * 2 ^ (e - ez).
Proof.
  intros Hle. unfold shl_align.
  destruct (ez - e) as [|d|d] eqn:Hd; cbn [fst]; try lia.
  - replace (e - ez) with 0 by lia. lia.
  - rewrite iter_xO_value. f_equal. f_equal. lia.
Qed.

Lemma shl_align_keep (m : positive) (e ez : Z) :
  e <= ez -> shl_align m e ez = (m, e).
Proof.
  intros Hle. unfold shl_align. destruct (ez - e) eqn:Hd; try reflexivity. lia.
Qed.

Lemma digits_from_bounds (s : positive) (a b : Z) :
  0 <= a -> 2 ^ a <= Zpos s < 2 ^ b ->
  a + 1 <= Zpos (digits2_pos s) <= b.
Proof.
  intros Ha [Hlo Hhi]. pose proof (digits2_pos_bounds s) as [Hlo' Hhi'].
  assert (Hb : 0 <= b).
  { destruct (Z.le_gt_cases 0 b); [assumption|].
    rewrite Z.pow_neg_r in Hhi by lia. lia. }
  assert (a < Zpos (digits2_pos s)) by (apply (Z.pow_lt_mono_r_iff 2); lia).
  assert (Zpos (digits2_pos s) - 1 < b)
    by (apply (Z.pow_lt_mono_r_iff 2); lia).
  lia.
Qed.

Lemma finite_lt (m m' : positive) (e e' : Z) :
  e < e' \/ (e = e' /\ Zpos m < Zpos m') ->
  SFltb (S754_finite false m e) (S754_finite false m' e') = true.
Proof.
  intros H. unfold SFltb, SFcompare.
  destruct (Z.compare_spec e e') as [Heq|Hlt|Hgt]; try reflexivity.
  - destruct H as [H|[_ H]]; [lia|].
    change (Pos.compare_cont Eq m m') with (Pos.compare m m').
    apply Pos2Z.pos_lt_pos in H. apply Pos.compare_lt_iff in H.
    rewrite H. reflexivity.
  - lia.
Qed.

(** The result of [binary_round] on a mantissa of more than 53 bits. *)
Lemma binary_round_rounds (sx : bool) (s : positive) (ez : Z) :
  54 <= Zpos (digits2_pos s) ->
  -1074 <= ez + (Zpos (digits2_pos s) - 53) ->
  ez + (Zpos (digits2_pos s) - 53) <= 971 ->
  (exists m',
     binary_round 53 1024 sx s ez
     = S754_finite sx m' (ez + (Zpos (digits2_pos s) - 53))
     /\ Zpos s / 2 ^ (Zpos (digits2_pos s) - 53) <= Zpos m'
        <= Zpos s / 2 ^ (Zpos (digits2_pos s) - 53) + 1
     /\ Zpos m' < 2 ^ 53
     /\ (Z.testbit (Zpos s) (Zpos (digits2_pos s) - 54) = false ->
         Zpos m' = Zpos s / 2 ^ (Zpos (digits2_pos s) - 53))
     /\ (Z.testbit (Zpos s) (Zpos (digits2_pos s) - 54) = true ->
         Zpos s mod 2 ^ (Zpos (digits2_pos s) - 54) <> 0 ->
         Zpos m' = Zpos s / 2 ^ (Zpos (digits2_pos s) - 53) + 1))
  \/ (Zpos s / 2 ^ (Zpos (digits2_pos s) - 53) = 2 ^ 53 - 1
      /\ Z.testbit (Zpos s) (Zpos (digits2_pos s) - 54) = true
      /\ binary_round 53 1024 sx s ez
         = if ez + (Zpos (digits2_pos s) - 53) + 1 <=? 971
           then S754_finite sx 4503599627370496
                  (ez + (Zpos (digits2_pos s) - 53) + 1)
           else S754_infinity sx).
Proof.
  intros Hlong Hlo Hhi.
  unfold binary_round.
  rewrite shl_align_keep by (unfold fexp, emin; lia).
  destruct (Zpos (digits2_pos s) - 53) as [|p|p] eqn:Hp; try lia.
  replace (Zpos (digits2_pos s) - 54) with (Zpos p - 1) by lia.
  apply binary_round_aux_long; lia.
Qed.

(** The sum computed by [SFadd] for two positive finite numbers, as soon as
    the exact sum [s] (in units of 2^ez) is too long by [p >= 1] bits. *)
Lemma binary_round_long (s : positive) (ez : Z) :
  54 <= Zpos (digits2_pos s) ->
  -1074 <= ez + (Zpos (digits2_pos s) - 53) ->
  ez + (Zpos (digits2_pos s) - 53) + 1 <= 971 ->
  exists m' e',
    binary_normalize 53 1024 (Zpos s) ez false = S754_finite false m' e'
    /\ ((e' = ez + (Zpos (digits2_pos s) - 53)
         /\ Zpos s / 2 ^ (Zpos (digits2_pos s) - 53) <= Zpos m'
         /\ (Z.testbit (Zpos s) (Zpos (digits2_pos s) - 54) = true ->
             Zpos s mod 2 ^ (Zpos (digits2_pos s) - 54) <> 0 ->
             Zpos s / 2 ^ (Zpos (digits2_pos s) - 53) + 1 <= Zpos m'))
        \/ e' = ez + (Zpos (digits2_pos s) - 53) + 1).
Proof.
  intros Hlong Hlo Hhi. cbn [binary_normalize].
  destruct (binary_round_rounds false s ez Hlong Hlo ltac:(lia))
    as [(m' & Hr & Hm' & _ & _ & Hup)|(_ & _ & Hr)].
  - exists m', (ez + (Zpos (digits2_pos s) - 53)). split; [exact Hr|].
    left. split; [reflexivity|]. split; [lia|].
    intros Hbit Hsticky. rewrite (Hup Hbit Hsticky). lia.
  - replace (ez + (Zpos (digits2_pos s) - 53) + 1 <=? 971) with true in Hr
      by (symmetry; apply Z.leb_le; lia).
    exists (4503599627370496)%positive,
      (ez + (Zpos (digits2_pos s) - 53) + 1).
    split; [exact Hr|right; reflexivity].
Qed.

(** ** Sums with a negative time *)

Lemma shl_align_exponent (m : positive) (e ez : Z) :
  ez <= e -> snd (shl_align m e ez) = ez.
Proof.
  intros Hle. unfold shl_align.
  destruct (ez - e) as [|d|d] eqn:Hd; cbn [snd]; lia.
Qed.

(** The result of [binary_round] on a mantissa of at most 53 bits, away from
    the subnormal range: the number itself, normalised. *)
Lemma binary_round_short (sx : bool) (s : positive) (ez : Z) :
  Zpos (digits2_pos s) <= 53 ->
  -1074 <= ez - (53 - Zpos (digits2_pos s)) -> ez <= 971 ->
  exists m',
    binary_round 53 1024 sx s ez
    = S754_finite sx m' (ez - (53 - Zpos (digits2_pos s)))
    /\ Zpos m' = Zpos s * 2 ^ (53 - Zpos (digits2_pos s)).
Proof.
  intros Hshort Hlo Hhi.
  pose proof (digits2_pos_bounds s) as [Hs_lo Hs_hi].
  set (D := Zpos (digits2_pos s)) in *.
  unfold binary_round. fold D.
  replace (fexp 53 1024 (D + ez)) with (ez - (53 - D))
    by (unfold fexp, emin; lia).
  pose proof (shl_align_value s ez (ez - (53 - D)) ltac:(lia)) as Hvalue.
  pose proof (shl_align_exponent s ez (ez - (53 - D)) ltac:(lia)) as Hexp.
  destruct (shl_align s ez (ez - (53 - D))) as [mz ez']. cbn [fst snd] in *.
  subst ez'. replace (ez - (ez - (53 - D))) with (53 - D) in Hvalue by lia.
  assert (Hpow : 0 < 2 ^ (53 - D)) by (apply Z.pow_pos_nonneg; lia).
  assert (Hmz : 2 ^ 52 <= Zpos mz < 2 ^ 53).
  { rewrite Hvalue.
    replace (2 ^ 52) with (2 ^ (D - 1) * 2 ^ (53 - D))
      by (rewrite <- Z.pow_add_r by lia; f_equal; lia).
    replace (2 ^ 53) with (2 ^ D * 2 ^ (53 - D))
      by (rewrite <- Z.pow_add_r by lia; f_equal; lia).
    split.
    - apply Z.mul_le_mono_nonneg_r; lia.
    - apply Z.mul_lt_mono_pos_r; lia. }
  assert (Hd : Zpos (digits2_pos mz) = 53)
    by (apply digits2_pos_unique; exact Hmz).
  exists mz. split; [|exact Hvalue].
  unfold binary_round_aux, shr_fexp. cbn [Zdigits2]. rewrite Hd.
  replace (fexp 53 1024 (53 + (ez - (53 - D))) - (ez - (53 - D))) with 0
    by (unfold fexp, emin; lia).
  cbn [shr shr_record_of_loc shr_m loc_of_shr_record round_nearest_even
       Zdigits2].
  rewrite Hd.
  replace (fexp 53 1024 (53 + (ez - (53 - D))) - (ez - (53 - D))) with 0
    by (unfold fexp, emin; lia).
  cbn [shr shr_m].
  replace (ez - (53 - D) <=? 1024 - 53) with true
    by (symmetry; apply Z.leb_le; lia).
  reflexivity.
Qed.

Lemma finite_neg_lt (m m' : positive) (e e' : Z) :
  e' < e \/ (e' = e /\ Zpos m' < Zpos m) ->
  SFltb (S754_finite true m e) (S754_finite true m' e') = true.
Proof.
  intros H. unfold SFltb, SFcompare.
  destruct (Z.compare_spec e e') as [Heq|Hlt|Hgt]; try reflexivity.
  - destruct H as [H|[_ H]]; [lia|].
    change (Pos.compare_cont Eq m m') with (Pos.compare m m').
    apply Pos2Z.pos_lt_pos in H. apply Pos.compare_gt_iff in H.
    rewrite H. reflexivity.
  - lia.
Qed.

Lemma shr_fexp_nonneg (m e : Z) :
  0 <= m -> 0 <= shr_m (fst (shr_fexp 53 1024 m e loc_Exact)).
Proof.
  intros Hm. unfold shr_fexp, shr. cbn [shr_record_of_loc].
  destruct (fexp 53 1024 (Zdigits2 m + e) - e) as [|p|p]; cbn [fst shr_m];
    try assumption.
  rewrite iter_pos_nat, iter_shr_1 by assumption.
  unfold shifted. cbn [shr_m]. apply Z.div_pos; lia.
Qed.

(** A sum that is positive before rounding is not rounded to a negative
    number. *)
Lemma negative_lt_binary_round (m : positive) (e : Z) (s : positive)
    (ez : Z) :
  SFltb (S754_finite true m e) (binary_round 53 1024 false s ez) = true.
Proof.
  unfold binary_round.
  destruct (shl_align s ez (fexp 53 1024 (Zpos (digits2_pos s) + ez)))
    as [mz ez'].
  unfold binary_round_aux.
  pose proof (shr_fexp_nonneg (Zpos mz) ez' ltac:(lia)) as H1.
  destruct (shr_fexp 53 1024 (Zpos mz) ez' loc_Exact) as [mrs' e'].
  cbn [fst] in H1.
  pose proof (round_nearest_even_bounds (shr_m mrs') (loc_of_shr_record mrs'))
    as Hround.
  pose proof (shr_fexp_nonneg
                (round_nearest_even (shr_m mrs') (loc_of_shr_record mrs')) e'
                ltac:(lia)) as H2.
  destruct (shr_fexp 53 1024
              (round_nearest_even (shr_m mrs') (loc_of_shr_record mrs')) e'
              loc_Exact) as [mrs'' e''].
  cbn [fst] in H2.
  destruct (shr_m mrs'') as [|m''|m'']; [reflexivity| |lia].
  destruct (e'' <=? 1024 - 53); reflexivity.
Qed.

(** Adding the double nearest to 0.0001 to a positive double below 2^40
    gives a larger double. *)
Lemma add_0_0001_increases (m : positive) (e : Z) :
  bounded 53 1024 m e = true -> e <= -13 ->
  SFltb (S754_finite false m e)
    (SFadd 53 1024 (S754_finite false m e) binary64_0_0001) = true.
Proof.
  intros Hb He.
  unfold bounded, canonical_mantissa in Hb.
  apply andb_true_iff in Hb as [Hc _]. apply Z.eqb_eq in Hc.
  unfold fexp, emin in Hc.
  pose proof (digits2_pos_bounds m) as [Hm_lo Hm_hi].
  assert (Hm53 : Zpos m < 2 ^ 53).
  { eapply Z.lt_le_trans; [exact Hm_hi|]. apply Z.pow_le_mono_r; lia. }
  unfold SFadd, binary64_0_0001. cbn [cond_Zopp].
  match goal with
  | |- context [binary_normalize _ _ (Zpos ?a + Zpos ?b) _ _] =>
      change (Zpos a + Zpos b) with (Zpos (a + b));
      assert (Hs : Zpos (a + b) = Zpos a + Zpos b) by reflexivity;
      set (s := (a + b)%positive) in *
  end.
  destruct (Z.le_gt_cases (-66) e) as [Hge|Hlt].
  - (* the exponent of the time is at least that of the offset *)
    rewrite Z.min_r in * by lia.
    rewrite !shl_align_value in Hs by lia.
    replace (-66 - -66) with 0 in Hs by lia.
    rewrite Z.pow_0_r, Z.mul_1_r in Hs.
    assert (Hd : Zpos (digits2_pos m) = 53) by lia.
    rewrite Hd in Hm_lo. cbn [Z.sub Z.add Z.opp Z.pos_sub] in Hm_lo.
    set (d := e - -66) in *.
    assert (Hd0 : 0 <= d <= 53) by lia.
    assert (Hpow : 0 < 2 ^ d) by (apply Z.pow_pos_nonneg; lia).
    assert (Hpow' : 2 ^ d <= 2 ^ 53) by (apply Z.pow_le_mono_r; lia).
    assert (Hdigits : 54 <= Zpos (digits2_pos s)
                      /\ 53 + d <= Zpos (digits2_pos s) <= 54 + d).
    { pose proof (digits_from_bounds s 53 (54 + d) ltac:(lia)) as H1.
      pose proof (digits_from_bounds s (52 + d) (54 + d) ltac:(lia)) as H2.
      rewrite !Z.pow_add_r in * by lia.
      assert (2 ^ 52 * 2 ^ d <= Zpos m * 2 ^ d)
        by (apply Z.mul_le_mono_nonneg_r; lia).
      assert (Zpos m * 2 ^ d <= (2 ^ 53 - 1) * 2 ^ d)
        by (apply Z.mul_le_mono_nonneg_r; lia).
      lia. }
    destruct Hdigits as [Hlong Hdigits].
    destruct (binary_round_long s (-66) Hlong ltac:(lia) ltac:(lia))
      as (m' & e' & Hr & Hcases).
    rewrite Hr. apply finite_lt.
    destruct Hcases as [(He' & Hm' & Hup)|He']; [|left; lia].
    destruct (Z.eq_dec (Zpos (digits2_pos s)) (53 + d)) as [Heq|Hneq];
      [|left; lia].
    right. split; [lia|]. rewrite Heq in Hm', Hup.
    replace (53 + d - 53) with d in Hm', Hup by lia.
    replace (53 + d - 54) with (d - 1) in Hup by lia.
    rewrite Hs, Z.div_add_l in Hm', Hup by lia.
    destruct (Z.eq_dec d 53) as [Hd53|Hd53].
    + rewrite Hd53 in Hup. replace (53 - 1) with 52 in Hup by lia.
      assert (Hbit :
        Z.testbit (Zpos m * 2 ^ 53 + 7378697629483821) 52 = true).
      { rewrite Z.testbit_odd, Z.shiftr_div_pow2 by lia.
        replace (Zpos m * 2 ^ 53) with (Zpos m * 2 * 2 ^ 52) by lia.
        rewrite Z.div_add_l by lia.
        rewrite Z.add_comm, (Z.mul_comm (Zpos m) 2), Z.odd_add_mul_2.
        reflexivity. }
      assert (Hsticky :
        (Zpos m * 2 ^ 53 + 7378697629483821) mod 2 ^ 52 <> 0).
      { replace (Zpos m * 2 ^ 53) with (Zpos m * 2 * 2 ^ 52) by lia.
        rewrite Z.add_comm, Z.mod_add by lia. discriminate. }
      specialize (Hup Hbit Hsticky).
      assert (0 <= 7378697629483821 / 2 ^ 53) by (apply Z.div_pos; lia).
      lia.
    + assert (1 <= 7378697629483821 / 2 ^ d).
      { apply Z.div_le_lower_bound; [lia|].
        assert (2 ^ d <= 2 ^ 52) by (apply Z.pow_le_mono_r; lia). lia. }
      lia.
  - (* the time is smaller than the offset by exponent *)
    rewrite Z.min_l in * by lia.
    rewrite !shl_align_value in Hs by lia.
    replace (e - e) with 0 in Hs by lia.
    rewrite Z.pow_0_r, Z.mul_1_r in Hs.
    set (k := -66 - e) in *.
    assert (Hk : 1 <= k) by lia.
    assert (Hpow : 2 <= 2 ^ k).
    { change 2 with (2 ^ 1) at 1. apply Z.pow_le_mono_r; lia. }
    assert (Hdigits : 53 + k <= Zpos (digits2_pos s) <= 54 + k).
    { pose proof (digits_from_bounds s (52 + k) (54 + k) ltac:(lia)) as H2.
      rewrite !Z.pow_add_r in * by lia. lia. }
    destruct (binary_round_long s e ltac:(lia) ltac:(lia) ltac:(lia))
      as (m' & e' & Hr & Hcases).
    rewrite Hr. apply finite_lt. left.
    destruct Hcases as [(He' & _)|He']; lia.
Qed.

Lemma finite_lt_inv (m m' : positive) (e e' : Z) :
  SFltb (S754_finite false m e) (S754_finite false m' e') = true ->
  e < e' \/ (e = e' /\ Zpos m < Zpos m').
Proof.
  unfold SFltb, SFcompare.
  change (Pos.compare_cont Eq m m') with (Pos.compare m m').
  destruct (Z.compare_spec e e') as [Heq|Hlt|Hgt]; intros H.
  - right. split; [exact Heq|].
    destruct (Pos.compare_spec m m') as [Hm|Hm|Hm]; try discriminate H.
    apply Pos2Z.pos_lt_pos. exact Hm.
  - left. exact Hlt.
  - discriminate H.
Qed.

(** Adding it to a negative double from -2^40 on gives a larger double as
    well: a positive number or zero for the small ones, the exact difference
    when that is a double, and otherwise a difference that is rounded to a
    double of smaller magnitude. *)
Lemma add_0_0001_increases_negative (m : positive) (e : Z) :
  bounded 53 1024 m e = true ->
  e <= -13 \/ (e = -12 /\ Zpos m = 2 ^ 52) ->
  SFltb (S754_finite true m e)
    (SFadd 53 1024 (S754_finite true m e) binary64_0_0001) = true.
Proof.
  intros Hb He.
  unfold bounded, canonical_mantissa in Hb.
  apply andb_true_iff in Hb as [Hc _]. apply Z.eqb_eq in Hc.
  unfold fexp, emin in Hc.
  pose proof (digits2_pos_bounds m) as [Hm_lo Hm_hi].
  assert (Hm53 : Zpos m < 2 ^ 53).
  { eapply Z.lt_le_trans; [exact Hm_hi|]. apply Z.pow_le_mono_r; lia. }
  unfold SFadd, binary64_0_0001. cbn [cond_Zopp].
  pose proof (shl_align_value m e (Z.min e (-66)) ltac:(lia)) as HA.
  pose proof (shl_align_value 7378697629483821 (-66) (Z.min e (-66))
                ltac:(lia)) as HB.
  match goal with
  | |- context [binary_normalize _ _ ?S _ _] => destruct S as [|s|s] eqn:HS
  end; cbn [binary_normalize].
  - reflexivity.
  - apply negative_lt_binary_round.
  - rewrite HA, HB in HS. clear HA HB.
    assert (Hs : Zpos s
                 = Zpos m * 2 ^ (e - Z.min e (-66))
                   - 7378697629483821 * 2 ^ (-66 - Z.min e (-66))) by lia.
    clear HS.
    destruct (Z.le_gt_cases (-66) e) as [Hge|Hlt].
    2: { (* below the exponent of the offset the sum is positive *)
      rewrite Z.min_l in Hs by lia.
      replace (e - e) with 0 in Hs by lia.
      rewrite Z.pow_0_r, Z.mul_1_r in Hs.
      assert (2 ^ 1 <= 2 ^ (-66 - e)) by (apply Z.pow_le_mono_r; lia).
      lia. }
    rewrite Z.min_r in * by lia.
    replace (-66 - -66) with 0 in Hs by lia.
    rewrite Z.pow_0_r, Z.mul_1_r in Hs.
    assert (Hd : Zpos (digits2_pos m) = 53) by lia.
    rewrite Hd in Hm_lo. replace (53 - 1) with 52 in Hm_lo by lia.
    set (d := e - -66) in *.
    assert (Hd0 : 0 <= d <= 54) by lia.
    assert (Hpow : 0 < 2 ^ d) by (apply Z.pow_pos_nonneg; lia).
    pose proof (digits2_pos_bounds s) as [Hs_lo Hs_hi].
    set (D := Zpos (digits2_pos s)) in *.
    assert (HD : D <= 53 + d).
    { assert (D - 1 < 53 + d); [|lia].
      apply (Z.pow_lt_mono_r_iff 2); [lia..|].
      rewrite Z.pow_add_r by lia.
      assert (Zpos m * 2 ^ d < 2 ^ 53 * 2 ^ d)
        by (apply Z.mul_lt_mono_pos_r; lia).
      lia. }
    assert (HD' : Zpos m = 2 ^ 52 -> D <= 52 + d).
    { intros Hm. assert (D - 1 < 52 + d); [|lia].
      apply (Z.pow_lt_mono_r_iff 2); [lia..|].
      rewrite Z.pow_add_r by lia. rewrite Hm in Hs. lia. }
    assert (Hq : forall p, 0 <= p -> Zpos s / 2 ^ p * 2 ^ p <= Zpos s).
    { intros p Hp. assert (0 < 2 ^ p) by (apply Z.pow_pos_nonneg; lia).
      rewrite Z.mul_comm. apply Z.mul_div_le. lia. }
    destruct (Z.le_gt_cases D 53) as [Hshort|Hlong].
    + (* the difference is a double *)
      destruct (binary_round_short true s (-66) Hshort ltac:(lia) ltac:(lia))
        as (m' & Hr & Hm').
      fold D in Hr, Hm'. rewrite Hr. apply finite_neg_lt.
      destruct (Z.eq_dec (-66 - (53 - D)) e) as [Heq|Hneq]; [|left; lia].
      right. split; [exact Heq|].
      replace (53 - D) with 0 in Hm' by lia.
      replace d with 0 in Hs by lia.
      rewrite Z.pow_0_r, Z.mul_1_r in Hm', Hs. lia.
    + (* the difference is rounded *)
      pose proof (binary_round_rounds true s (-66) ltac:(lia) ltac:(lia)
                    ltac:(lia)) as Hround.
      fold D in Hround.
      destruct Hround
        as [(m' & Hr & Hm' & Hm'53 & Hdown & Hup)|(Hcarry & Hbit & Hr)];
        rewrite Hr.
      * apply finite_neg_lt.
        destruct (Z.eq_dec (D - 53) d) as [Hp|Hp]; [|left; lia].
        right. split; [lia|]. rewrite Hp in *.
        assert (Hlt : Zpos s / 2 ^ d < Zpos m).
        { apply Z.div_lt_upper_bound; lia. }
        destruct (Z.le_gt_cases d 52) as [Hsmall|Hbig].
        -- assert (2 ^ d <= 2 ^ 52) by (apply Z.pow_le_mono_r; lia).
           assert (Zpos s / 2 ^ d < Zpos m - 1).
           { apply Z.div_lt_upper_bound; lia. }
           lia.
        -- destruct (Z.eq_dec d 53) as [Hd53|Hd53].
           ++ rewrite Hdown; [lia|].
              replace (D - 54) with 52 by lia.
              rewrite Hs, Hd53.
              rewrite Z.testbit_odd, Z.shiftr_div_pow2 by lia.
              replace (Zpos m * 2 ^ 53 - 7378697629483821)
                with ((Zpos m - 1) * 2 * 2 ^ 52 + 1628501625257171) by lia.
              rewrite Z.div_add_l by lia.
              change (1628501625257171 / 2 ^ 52) with 0.
              rewrite Z.add_0_r, Z.mul_comm, Z.odd_mul. reflexivity.
           ++ assert (Zpos m = 2 ^ 52) by lia. specialize (HD' ltac:(lia)). lia.
      * replace (-66 + (D - 53) + 1 <=? 971) with true
          by (symmetry; apply Z.leb_le; lia).
        apply finite_neg_lt.
        destruct (Z.le_gt_cases (D - 53) (d - 2)) as [Hp|Hp]; [left; lia|].
        destruct (Z.eq_dec (D - 53) d) as [Hpd|Hpd].
        -- (* no carry when the exponent is kept *)
           rewrite Hpd in Hcarry.
           assert (Hlt : Zpos s / 2 ^ d < Zpos m).
           { apply Z.div_lt_upper_bound; lia. }
           lia.
        -- right. split; [lia|].
           destruct (Z.eq_dec (Zpos m) (2 ^ 52)) as [Hm|Hm]; [|lia].
           exfalso.
           assert (Hp1 : D - 53 = d - 1) by lia.
           rewrite Hp1 in Hcarry. pose proof (Hq (d - 1) ltac:(lia)) as Hq1.
           rewrite Hcarry in Hq1. rewrite Hs, Hm in Hq1.
           assert (H2 : 2 ^ d = 2 * 2 ^ (d - 1)).
           { rewrite <- Z.pow_succ_r by lia. f_equal. lia. }
           assert (Hbig : 7378697629483821 <= 2 ^ (d - 1)) by lia.
           assert (Hd54 : d = 54).
           { assert (52 < d - 1); [|lia].
             apply (Z.pow_lt_mono_r_iff 2); lia. }
           replace (D - 54) with 52 in Hbit by lia.
           rewrite Hs, Hm, Hd54 in Hbit. discriminate Hbit.
Qed.

Lemma finite_neg_le_inv (m m' : positive) (e e' : Z) :
  SFleb (S754_finite true m e) (S754_finite true m' e') = true ->
  e' < e \/ (e' = e /\ Zpos m' <= Zpos m).
Proof.
  unfold SFleb, SFcompare.
  change (Pos.compare_cont Eq m m') with (Pos.compare m m').
  destruct (Z.compare_spec e e') as [Heq|Hlt|Hgt]; intros H.
  - right. split; [symmetry; exact Heq|].
    destruct (Pos.compare_spec m m') as [Hm|Hm|Hm]; try discriminate H.
    + rewrite Hm. lia.
    + apply Pos2Z.pos_lt_pos in Hm. lia.
  - discriminate H.
  - left. exact Hgt.
Qed.

(** The same for the kernel's binary64 numbers: adding the double nearest to
    0.0001 to a double from -2^40 up to, but excluding, 2^40 gives a larger
    double. *)
Lemma float_add_0_0001_increases (t : float) :
  (-0x1p40 <=? t)%float = true -> (t <? 0x1p40)%float = true ->
  (t <? t + 0.0001)%float = true.
Proof.
  rewrite leb_spec, !ltb_spec, add_spec, literal_0_0001.
  pose proof (Prim2SF_valid t) as Hvalid.
  change (Prim2SF (-0x1p40)) with (S754_finite true 4503599627370496 (-12)).
  change (Prim2SF 0x1p40) with (S754_finite false 4503599627370496 (-12)).
  unfold SF64add, prec, emax in *.
  destruct (Prim2SF t) as [b|b| |b m e].
  - intros _ _. destruct b; reflexivity.
  - destruct b; intros H1 H2; [discriminate H1|discriminate H2].
  - intros H1; discriminate H1.
  - cbn [valid_binary] in Hvalid. pose proof Hvalid as Hb.
    unfold bounded, canonical_mantissa in Hvalid.
    apply andb_true_iff in Hvalid as [Hc _]. apply Z.eqb_eq in Hc.
    unfold fexp, emin in Hc.
    pose proof (digits2_pos_bounds m) as [Hm_lo Hm_hi].
    destruct b; intros Hle Hlt.
    + apply add_0_0001_increases_negative; [exact Hb|].
      apply finite_neg_le_inv in Hle as [Hle|[He Hm]]; [lia|].
      right. split; [lia|].
      assert (Hd : Zpos (digits2_pos m) = 53) by lia.
      rewrite Hd in Hm_lo. replace (53 - 1) with 52 in Hm_lo by lia. lia.
    + apply add_0_0001_increases; [exact Hb|].
      apply finite_lt_inv in Hlt as [Hlt|[He Hm]]; [lia|].
      assert (Hd : Zpos (digits2_pos m) = 53) by lia.
      rewrite Hd in Hm_lo. replace (53 - 1) with 52 in Hm_lo by lia. lia.
Qed.

(** ** Times of magnitude 2^40 and more *)

Lemma pow2_double (d : Z) : 1 <= d -> 2 ^ d = 2 * 2 ^ (d - 1).
Proof. intros Hd. rewrite <- Z.pow_succ_r by lia. f_equal. lia. Qed.

(** From 2^40 on, adding the double nearest to 0.0001 changes nothing. *)
Lemma add_0_0001_absorbed (m : positive) (e : Z) :
  bounded 53 1024 m e = true -> -12 <= e ->
  SFadd 53 1024 (S754_finite false m e) binary64_0_0001
  = S754_finite false m e.
Proof.
  intros Hb He.
  unfold bounded, canonical_mantissa in Hb.
  apply andb_true_iff in Hb as [Hc Hmax]. apply Z.eqb_eq in Hc.
  apply Z.leb_le in Hmax.
  unfold fexp, emin in Hc.
  pose proof (digits2_pos_bounds m) as [Hm_lo Hm_hi].
  assert (Hd : Zpos (digits2_pos m) = 53) by lia.
  rewrite Hd in Hm_lo, Hm_hi. replace (53 - 1) with 52 in Hm_lo by lia.
  unfold SFadd, binary64_0_0001. cbn [cond_Zopp].
  rewrite Z.min_r by lia.
  pose proof (shl_align_value m e (-66) ltac:(lia)) as HA.
  pose proof (shl_align_value 7378697629483821 (-66) (-66) ltac:(lia)) as HB.
  replace (-66 - -66) with 0 in HB by lia.
  rewrite Z.pow_0_r, Z.mul_1_r in HB.
  match goal with
  | |- context [binary_normalize _ _ (Zpos ?a + Zpos ?b) _ _] =>
      change (Zpos a + Zpos b) with (Zpos (a + b));
      assert (Hs : Zpos (a + b) = Zpos a + Zpos b) by reflexivity;
      set (s := (a + b)%positive) in *
  end.
  rewrite HA, HB in Hs. clear HA HB. cbn [binary_normalize].
  set (d := e - -66) in *.
  assert (Hd0 : 54 <= d) by lia.
  assert (Hpow : 2 ^ 54 <= 2 ^ d) by (apply Z.pow_le_mono_r; lia).
  pose proof (pow2_double d ltac:(lia)) as Hdouble.
  assert (HD : Zpos (digits2_pos s) = 53 + d).
  { apply digits2_pos_unique. replace (53 + d - 1) with (52 + d) by lia.
    rewrite !Z.pow_add_r by lia.
    assert (2 ^ 52 * 2 ^ d <= Zpos m * 2 ^ d)
      by (apply Z.mul_le_mono_nonneg_r; lia).
    assert (Zpos m * 2 ^ d <= (2 ^ 53 - 1) * 2 ^ d)
      by (apply Z.mul_le_mono_nonneg_r; lia).
    lia. }
  assert (Hquot : Zpos s / 2 ^ d = Zpos m).
  { symmetry. apply (Z.div_unique _ _ _ 7378697629483821); lia. }
  assert (Hbit : Z.testbit (Zpos s) (d - 1) = false).
  { rewrite Z.testbit_odd, Z.shiftr_div_pow2 by lia.
    replace (Zpos s / 2 ^ (d - 1)) with (2 * Zpos m).
    - rewrite Z.odd_mul. reflexivity.
    - apply (Z.div_unique _ _ _ 7378697629483821); lia. }
  pose proof (binary_round_rounds false s (-66) ltac:(lia) ltac:(lia)
                ltac:(lia)) as Hround.
  rewrite HD in Hround.
  replace (53 + d - 53) with d in Hround by lia.
  replace (53 + d - 54) with (d - 1) in Hround by lia.
  destruct Hround as [(m' & Hr & _ & _ & Hdown & _)|(_ & Hbit' & _)].
  - rewrite Hr. specialize (Hdown Hbit). rewrite Hquot in Hdown.
    injection Hdown as ->. f_equal. lia.
  - congruence.
Qed.

(** Below -2^40 as well. *)
Lemma add_0_0001_absorbed_negative (m : positive) (e : Z) :
  bounded 53 1024 m e = true ->
  -11 <= e \/ (e = -12 /\ 2 ^ 52 < Zpos m) ->
  SFadd 53 1024 (S754_finite true m e) binary64_0_0001
  = S754_finite true m e.
Proof.
  intros Hb He.
  unfold bounded, canonical_mantissa in Hb.
  apply andb_true_iff in Hb as [Hc Hmax]. apply Z.eqb_eq in Hc.
  apply Z.leb_le in Hmax.
  unfold fexp, emin in Hc.
  pose proof (digits2_pos_bounds m) as [Hm_lo Hm_hi].
  assert (Hd : Zpos (digits2_pos m) = 53) by lia.
  rewrite Hd in Hm_lo, Hm_hi. replace (53 - 1) with 52 in Hm_lo by lia.
  unfold SFadd, binary64_0_0001. cbn [cond_Zopp].
  rewrite Z.min_r by lia.
  pose proof (shl_align_value m e (-66) ltac:(lia)) as HA.
  pose proof (shl_align_value 7378697629483821 (-66) (-66) ltac:(lia)) as HB.
  replace (-66 - -66) with 0 in HB by lia.
  rewrite Z.pow_0_r, Z.mul_1_r in HB.
  set (d := e - -66) in *.
  assert (Hd0 : 54 <= d) by lia.
  assert (Hpow : 2 ^ 54 <= 2 ^ d) by (apply Z.pow_le_mono_r; lia).
  pose proof (pow2_double d ltac:(lia)) as Hdouble.
  assert (Hmd : 2 ^ 52 * 2 ^ d <= Zpos m * 2 ^ d)
    by (apply Z.mul_le_mono_nonneg_r; lia).
  assert (Hmd' : Zpos m * 2 ^ d <= (2 ^ 53 - 1) * 2 ^ d)
    by (apply Z.mul_le_mono_nonneg_r; lia).
  match goal with
  | |- context [binary_normalize _ _ ?S _ _] => destruct S as [|s|s] eqn:HS
  end; [lia|lia|].
  assert (Hs : Zpos s = Zpos m * 2 ^ d - 7378697629483821) by lia.
  clear HS HA HB. cbn [binary_normalize].
  destruct (Z.eq_dec (Zpos m) (2 ^ 52)) as [Hm|Hm].
  - (* a power of two: the difference has one bit less and is rounded up *)
    assert (Hd1 : 55 <= d) by lia.
    assert (Hpow1 : 2 ^ 54 <= 2 ^ (d - 1)) by (apply Z.pow_le_mono_r; lia).
    pose proof (pow2_double (d - 1) ltac:(lia)) as Hdouble1.
    replace (d - 1 - 1) with (d - 2) in Hdouble1 by lia.
    assert (HD : Zpos (digits2_pos s) = 52 + d).
    { apply digits2_pos_unique. replace (52 + d - 1) with (51 + d) by lia.
      rewrite !Z.pow_add_r by lia. lia. }
    assert (Hquot : Zpos s / 2 ^ (d - 1) = 2 ^ 53 - 1).
    { symmetry.
      apply (Z.div_unique _ _ _ (2 ^ (d - 1) - 7378697629483821)); lia. }
    assert (Hbit : Z.testbit (Zpos s) (d - 2) = true).
    { rewrite Z.testbit_odd, Z.shiftr_div_pow2 by lia.
      replace (Zpos s / 2 ^ (d - 2)) with (1 + 2 * (2 ^ 53 - 1)).
      - rewrite Z.odd_add_mul_2. reflexivity.
      - apply (Z.div_unique _ _ _ (2 ^ (d - 2) - 7378697629483821)); lia. }
    pose proof (binary_round_rounds true s (-66) ltac:(lia) ltac:(lia)
                  ltac:(lia)) as Hround.
    rewrite HD in Hround.
    replace (52 + d - 53) with (d - 1) in Hround by lia.
    replace (52 + d - 54) with (d - 2) in Hround by lia.
    destruct Hround as [(m' & _ & _ & Hm' & _ & Hup)|(_ & _ & Hr)].
    + exfalso. rewrite Hup in Hm'; [lia|exact Hbit|].
      rewrite <- (Z.mod_unique (Zpos s) (2 ^ (d - 2)) (2 * (2 ^ 53 - 1) + 1)
                 (2 ^ (d - 2) - 7378697629483821)) ; lia.
    + rewrite Hr.
      replace (-66 + (d - 1) + 1 <=? 971) with true
        by (symmetry; apply Z.leb_le; lia).
      f_equal; lia.
  - assert (HD : Zpos (digits2_pos s) = 53 + d).
    { apply digits2_pos_unique. replace (53 + d - 1) with (52 + d) by lia.
      rewrite !Z.pow_add_r by lia.
      assert ((2 ^ 52 + 1) * 2 ^ d <= Zpos m * 2 ^ d)
        by (apply Z.mul_le_mono_nonneg_r; lia).
      lia. }
    assert (Hquot : Zpos s / 2 ^ d = Zpos m - 1).
    { symmetry. apply (Z.div_unique _ _ _ (2 ^ d - 7378697629483821)); lia. }
    assert (Hbit : Z.testbit (Zpos s) (d - 1) = true).
    { rewrite Z.testbit_odd, Z.shiftr_div_pow2 by lia.
      replace (Zpos s / 2 ^ (d - 1)) with (1 + 2 * (Zpos m - 1)).
      - rewrite Z.odd_add_mul_2. reflexivity.
      - apply (Z.div_unique _ _ _ (2 ^ (d - 1) - 7378697629483821)); lia. }
    pose proof (binary_round_rounds true s (-66) ltac:(lia) ltac:(lia)
                  ltac:(lia)) as Hround.
    rewrite HD in Hround.
    replace (53 + d - 53) with d in Hround by lia.
    replace (53 + d - 54) with (d - 1) in Hround by lia.
    destruct Hround as [(m' & Hr & _ & _ & _ & Hup)|(Hcarry & _ & _)].
    + rewrite Hr. rewrite Hquot in Hup.
      assert (Hm' : Zpos m' = Zpos m - 1 + 1).
      { apply Hup; [exact Hbit|].
        rewrite <- (Z.mod_unique (Zpos s) (2 ^ (d - 1)) (2 * (Zpos m - 1) + 1)
                   (2 ^ (d - 1) - 7378697629483821)); lia. }
      assert (m' = m) by lia. subst m'. f_equal. lia.
    + lia.
Qed.

Lemma finite_lt_irrefl (b : bool) (m : positive) (e : Z) :
  SFltb (S754_finite b m e) (S754_finite b m e) = false.
Proof.
  unfold SFltb, SFcompare.
  change (Pos.compare_cont Eq m m) with (Pos.compare m m).
  rewrite Z.compare_refl, Pos.compare_refl. destruct b; reflexivity.
Qed.

Lemma finite_neg_le (m m' : positive) (e e' : Z) :
  e' < e \/ (e' = e /\ Zpos m' <= Zpos m) ->
  SFleb (S754_finite true m e) (S754_finite true m' e') = true.
Proof.
  intros H. unfold SFleb, SFcompare.
  change (Pos.compare_cont Eq m m') with (Pos.compare m m').
  destruct (Z.compare_spec e e') as [Heq|Hlt|Hgt]; try reflexivity.
  - destruct H as [H|[_ H]]; [lia|].
    destruct (Pos.compare_spec m m') as [Hm|Hm|Hm]; try reflexivity.
    apply Pos2Z.pos_lt_pos in Hm. lia.
  - lia.
Qed.

(** The sum is later than the time exactly from -2^40 up to, but excluding,
    2^40. *)
Lemma float_add_0_0001_later (t : float) :
  (t <? t + 0.0001)%float = true
  <-> (-0x1p40 <=? t)%float = true /\ (t <? 0x1p40)%float = true.
Proof.
  split; [|intros [Hle Hlt]; apply float_add_0_0001_increases; assumption].
  rewrite leb_spec, !ltb_spec, add_spec, literal_0_0001.
  pose proof (Prim2SF_valid t) as Hvalid.
  change (Prim2SF (-0x1p40)) with (S754_finite true 4503599627370496 (-12)).
  change (Prim2SF 0x1p40) with (S754_finite false 4503599627370496 (-12)).
  unfold SF64add, prec, emax in *.
  destruct (Prim2SF t) as [b|b| |b m e].
  - intros _. destruct b; split; reflexivity.
  - destruct b; intros H; discriminate H.
  - intros H; discriminate H.
  - cbn [valid_binary] in Hvalid. pose proof Hvalid as Hb.
    unfold bounded, canonical_mantissa in Hvalid.
    apply andb_true_iff in Hvalid as [Hc _]. apply Z.eqb_eq in Hc.
    unfold fexp, emin in Hc.
    pose proof (digits2_pos_bounds m) as [Hm_lo Hm_hi].
    destruct b; intros Hlater.
    + split; [|reflexivity].
      destruct (Z.le_gt_cases e (-13)) as [He|He];
        [apply finite_neg_le; left; lia|].
      assert (Hd : Zpos (digits2_pos m) = 53) by lia.
      rewrite Hd in Hm_lo. replace (53 - 1) with 52 in Hm_lo by lia.
      destruct (Z.eq_dec e (-12)) as [He12|He12].
      * destruct (Z.eq_dec (Zpos m) (2 ^ 52)) as [Hm|Hm];
          [apply finite_neg_le; right; lia|].
        rewrite add_0_0001_absorbed_negative, finite_lt_irrefl in Hlater;
          [discriminate Hlater|exact Hb|right; lia].
      * rewrite add_0_0001_absorbed_negative, finite_lt_irrefl in Hlater;
          [discriminate Hlater|exact Hb|left; lia].
    + split; [reflexivity|].
      destruct (Z.le_gt_cases e (-13)) as [He|He];
        [apply finite_lt; left; lia|].
      rewrite add_0_0001_absorbed, finite_lt_irrefl in Hlater;
        [discriminate Hlater|exact Hb|lia].
Qed.

(** C6, as the code has it.  When the snapshot counter differs from the live
    counter, [DoCalcNextUpdateTime] adds one timed unrestricted update event
    and reports the binary64 sum of the context time and the constant
    0.0001.  That sum is strictly greater than the context time exactly for
    the context times from -2^40 up to, but excluding, 2^40. *)
Theorem refresh_time_is_time_plus_0_0001 (self : RosSubscriberSystem)
    (context : Context) (events : CompositeEventCollection) (time : float)
    (last_message_count : Z) :
  GetMessageCount context = Some last_message_count ->
  last_message_count ≠ received_message_count_ self ->
  DoCalcNextUpdateTime self context events time
  = Some (add_unrestricted_update_event events
            {| get_trigger_type := kTimed |},
          (get_time context + 0.0001)%float)
  ∧ ((get_time context <? get_time context + 0.0001)%float = true
     ↔ (-0x1p40 <=? get_time context)%float = true
       ∧ (get_time context <? 0x1p40)%float = true).
Proof.
  intros Hget Hne. split.
  - unfold DoCalcNextUpdateTime. rewrite Hget. cbn. by rewrite decide_True.
  - apply float_add_0_0001_later.
Qed.

(** ** Beyond [INT_MAX] deliveries *)

(** [INT_MAX] deliveries, a commit and one more delivery: the snapshot counter
    is [INT_MAX], the live counter [INT_MIN]. *)
Lemma snapshot_above_live_after_wrap (topic : string)
    (node_handle : NodeHandle) (self : RosSubscriberSystem)
    (xc : ContinuousState) (xd : DiscreteValues)
    (messages : list RosMessage) (message : RosMessage) :
  new_RosSubscriberSystem topic (Some node_handle) = Returned self ->
  Z.of_nat (length messages) = Int.INT_MAX ->
  ∃ w : World,
    reachable_by
      ((Deliver <$> messages) ++ [CalcUnrestrictedUpdate; Deliver message]) w
    ∧ GetMessageCount (the_context w) = Some Int.INT_MAX
    ∧ received_message_count_ (the_system w) = Int.INT_MIN.
Proof.
  intros Hnew Hlen.
  assert (Hcount : received_message_count_ (deliver_all self messages)
                   = Int.INT_MAX).
  { inversion Hnew; subst self.
    rewrite deliver_all_count_small; cbn [received_message_count_]; lia. }
  eexists. split_and!.
  - exists topic, node_handle, self, xc, xd. split; [done|].
    rewrite run_app, run_deliveries. cbn [mbind option_bind run exec].
    cbn [the_system the_context]. unfold DoCalcUnrestrictedUpdate.
    erewrite Process_on_pair by reflexivity. cbn. reflexivity.
  - cbn. by rewrite Hcount.
  - cbn. rewrite Hcount. apply incr_at_max.
Qed.

(** 2^32 deliveries bring the counter back to where it was. *)
Lemma counter_returns_after_2_32 (self : RosSubscriberSystem)
    (messages : list RosMessage) :
  Int.in_range (received_message_count_ self) ->
  Z.of_nat (length messages) = 2 ^ 32 ->
  received_message_count_ (deliver_all self messages)
  = received_message_count_ self.
Proof.
  intros Hrange Hlen. rewrite deliver_all_count, Hlen by done.
  rewrite <- (wrap_small _ Hrange) at 2. unfold Int.wrap.
  f_equal. unfold Int.modulus, Int.width.
  replace (received_message_count_ self + 2 ^ 32 - Int.INT_MIN)
    with (received_message_count_ self - Int.INT_MIN + 1 * 2 ^ 32) by lia.
  apply Z_mod_plus_full.
Qed.

(** * Further properties of the class *)

(** ** Names *)

Lemma append_nonempty (s : string) (c : Ascii.ascii) :
  (s ++ String c EmptyString)%string ≠ EmptyString.
Proof. by destruct s. Qed.

Lemma append_char_cancel (s1 s2 : string) (c : Ascii.ascii) :
  (s1 ++ String c EmptyString)%string = (s2 ++ String c EmptyString)%string ->
  s1 = s2.
Proof.
  revert s2. induction s1 as [|a s1 IH]; intros [|b s2] Heq; cbn in Heq.
  - done.
  - inversion Heq as [[Ha Hs]]. symmetry in Hs. by apply append_nonempty in Hs.
  - inversion Heq as [[Ha Hs]]. by apply append_nonempty in Hs.
  - inversion Heq as [[Ha Hs]]. f_equal. by apply IH.
Qed.

Lemma make_name_inj (topic topic' : string) :
  make_name topic = make_name topic' -> topic = topic'.
Proof.
  unfold make_name. cbn. intros Heq. inversion Heq as [Hs].
  by apply append_char_cancel in Hs.
Qed.

(** X1.  The object the constructor (or [Make]) returns answers
    [get_topic_name] with the topic it was given, is named
    [make_name topic], and no other topic gives that name. *)
Theorem name_determines_topic (topic : string) (node_handle : NodeHandle)
    (self : RosSubscriberSystem) :
  Make topic (Some node_handle) = Returned self ->
  get_topic_name self = topic
  ∧ get_name self = make_name (get_topic_name self)
  ∧ ∀ topic' : string, make_name topic' = get_name self → topic' = topic.
Proof.
  intros [= <-]. split_and!; [done..|].
  intros topic'. apply make_name_inj.
Qed.

(** ** What a commit leaves in the context *)

Lemma Process_result (self : RosSubscriberSystem) (a a' : AbstractValues) :
  ProcessMessageAndStoreToAbstractState self a = Some a' ->
  a' !! kStateIndexMessage = Some (Value_RosMessage (received_message_ self))
  ∧ a' !! kStateIndexMessageCount
    = Some (Value_int (received_message_count_ self)).
Proof.
  unfold ProcessMessageAndStoreToAbstractState, assign_RosMessage, assign_int,
    get_value, kStateIndexMessage, kStateIndexMessageCount,
    AbstractValues in *.
  destruct (a !! 0%nat) as [[m0|?]|] eqn:H0; [|done..]. cbn.
  rewrite list_lookup_insert_ne by done.
  destruct (a !! 1%nat) as [[?|c0]|] eqn:H1; [done| |done].
  intros [= <-]. split.
  - rewrite list_lookup_insert_ne by done.
    apply list_lookup_insert_eq. by eapply lookup_lt_Some.
  - apply list_lookup_insert_eq. rewrite length_insert.
    by eapply lookup_lt_Some.
Qed.

Lemma Process_fixpoint (self : RosSubscriberSystem) (a : AbstractValues) :
  a !! kStateIndexMessage = Some (Value_RosMessage (received_message_ self)) ->
  a !! kStateIndexMessageCount
  = Some (Value_int (received_message_count_ self)) ->
  ProcessMessageAndStoreToAbstractState self a = Some a.
Proof.
  unfold ProcessMessageAndStoreToAbstractState, assign_RosMessage, assign_int,
    get_value, kStateIndexMessage, kStateIndexMessageCount,
    AbstractValues in *.
  intros H0 H1. rewrite H0. cbn. rewrite (list_insert_id _ _ _ H0), H1.
  by rewrite (list_insert_id _ _ _ H1).
Qed.

(** X2.  After a commit that returned, and until the next delivery, the context
    is in step with the object: a poll adds no event and leaves the time
    argument alone, and a second commit changes nothing. *)
Theorem poll_after_commit_is_silent (self : RosSubscriberSystem)
    (context : Context) (events : list UnrestrictedUpdateEvent)
    (state state' : State) (pending : CompositeEventCollection)
    (time : float) :
  DoCalcUnrestrictedUpdate self context events state = Some state' ->
  DoCalcNextUpdateTime self (with_state context state') pending time
  = Some (pending, time)
  ∧ DoCalcUnrestrictedUpdate self (with_state context state') events state'
    = Some state'.
Proof.
  unfold DoCalcUnrestrictedUpdate. intros H.
  destruct (ProcessMessageAndStoreToAbstractState self (abstract_state state))
    as [a'|] eqn:Hp; [|done].
  inversion H; subst state'; clear H.
  destruct (Process_result _ _ _ Hp) as [H0 H1]. split.
  - unfold DoCalcNextUpdateTime, GetMessageCount, get_abstract_state_int,
      get_value. cbn. rewrite H1. cbn. by rewrite decide_False by (by intros ?).
  - cbn. by rewrite (Process_fixpoint _ _ H0 H1).
Qed.

(** X3.  After a commit that returned, the message count read from the context is
    the live counter of the moment of the commit and the output port yields
    the message the buffer held then, whatever the output box held before. *)
Theorem commit_then_read_back (self : RosSubscriberSystem)
    (context : Context) (events : list UnrestrictedUpdateEvent)
    (state state' : State) (previous : RosMessage) :
  DoCalcUnrestrictedUpdate self context events state = Some state' ->
  GetMessageCount (with_state context state')
  = Some (received_message_count_ self)
  ∧ snapshot_message (with_state context state')
    = Some (received_message_ self)
  ∧ CalcOutputValue (with_state context state') (Value_RosMessage previous)
    = Some (Value_RosMessage (received_message_ self)).
Proof.
  unfold DoCalcUnrestrictedUpdate. intros H.
  destruct (ProcessMessageAndStoreToAbstractState self (abstract_state state))
    as [a'|] eqn:Hp; [|done].
  inversion H; subst state'; clear H.
  destruct (Process_result _ _ _ Hp) as [H0 H1].
  unfold GetMessageCount, get_abstract_state_int, snapshot_message,
    CalcOutputValue, get_value. cbn. by rewrite H0, H1.
Qed.

(** ** Where the output comes from *)

(** A message is known to a trace when it is [RosMessage{}] or the trace
    delivers it. *)
Definition known (ops : list Operation) (message : RosMessage) : Prop :=
  message = RosMessage_default ∨ Deliver message ∈ ops.

Definition provenance (ops : list Operation) (w : World) : Prop :=
  known ops (received_message_ (the_system w))
  ∧ ∃ payload count,
      snapshot_pair (abstract_state (get_state (the_context w)))
      = Some (payload, count)
      ∧ known ops payload.

Lemma known_mono (ops ops' : list Operation) (message : RosMessage) :
  known ops message -> known (ops ++ ops') message.
Proof.
  intros [->|Hin]; [by left|]. right. apply elem_of_app. by left.
Qed.

Lemma exec_provenance (ops : list Operation) (op : Operation) (w w' : World) :
  provenance ops w -> exec op w = Some w' -> provenance (ops ++ [op]) w'.
Proof.
  intros (Hlive & payload & count & Hpair & Hknown) Hexec.
  assert (Hlive' := known_mono ops [op] _ Hlive).
  assert (Hknown' := known_mono ops [op] _ Hknown).
  destruct op; cbn [exec] in Hexec.
  - inversion Hexec; subst w'; clear Hexec. split.
    + right. apply elem_of_app. right. apply elem_of_cons. by left.
    + by exists payload, count.
  - destruct (DoCalcNextUpdateTime _ _ _ _); [|done].
    inversion Hexec; subst w'. split; [done|]. by exists payload, count.
  - unfold DoCalcUnrestrictedUpdate in Hexec.
    rewrite (Process_on_pair _ _ _ _ Hpair) in Hexec.
    inversion Hexec; subst w'; clear Hexec. split; [done|].
    by eexists _, _.
  - unfold SetDefaultState in Hexec.
    rewrite (Process_on_pair _ _ _ _ Hpair) in Hexec.
    inversion Hexec; subst w'; clear Hexec. split; [done|].
    by eexists _, _.
  - inversion Hexec; subst w'; clear Hexec. split; [done|].
    by exists payload, count.
  - destruct (CalcOutputValue _ _); [|done].
    inversion Hexec; subst w'. split; [done|]. by exists payload, count.
Qed.

Lemma run_provenance (ops0 ops : list Operation) (w w' : World) :
  provenance ops0 w -> run ops w = Some w' -> provenance (ops0 ++ ops) w'.
Proof.
  revert ops0 w. induction ops as [|op ops IH]; intros ops0 w Hinv Hrun.
  - cbn in Hrun. inversion Hrun; subst. by rewrite app_nil_r.
  - cbn in Hrun. destruct (exec op w) as [w1|] eqn:Hexec; [|done].
    cbn in Hrun. replace (ops0 ++ op :: ops) with ((ops0 ++ [op]) ++ ops)
      by (by rewrite <- app_assoc).
    eapply IH; [|exact Hrun]. by eapply exec_provenance.
Qed.

Lemma delivered_counts (ops : list Operation) (message : RosMessage) :
  Deliver message ∈ ops -> 1 <= deliveries ops.
Proof.
  intros Hin. unfold deliveries.
  apply list_elem_of_In in Hin.
  assert (Hf : In (Deliver message) (List.filter is_deliver ops))
    by (by apply List.filter_In).
  destruct (List.filter is_deliver ops); [done|]. cbn [length]. lia.
Qed.

(** X4.  In every world the simulator can reach, the output port yields a message
    that was delivered by the operations that led there, or [RosMessage{}];
    never anything else.  Before the first delivery it yields [RosMessage{}]
    and the message count is 0. *)
Theorem output_was_delivered (ops : list Operation) (w : World)
    (previous : RosMessage) :
  reachable_by ops w ->
  ∃ payload : RosMessage,
    CalcOutputValue (the_context w) (Value_RosMessage previous)
    = Some (Value_RosMessage payload)
    ∧ (payload = RosMessage_default ∨ Deliver payload ∈ ops)
    ∧ (deliveries ops = 0 →
       payload = RosMessage_default
       ∧ GetMessageCount (the_context w) = Some 0).
Proof.
  intros Hreach.
  destruct (reachable_invariant _ _ Hreach)
    as (payload & count & k & Hpair & _ & Hk & Hcount).
  assert (Hprov : provenance ops w).
  { destruct Hreach as (topic & nh & self & xc & xd & Hnew & Hrun).
    refine (run_provenance [] ops _ w _ Hrun).
    inversion Hnew; subst self. split; [by left|].
    exists RosMessage_default, 0. split; [done|by left]. }
  destruct Hprov as (_ & payload' & count' & Hpair' & Hknown).
  rewrite Hpair in Hpair'. inversion Hpair'; subst payload' count'.
  pose proof (snapshot_pair_inv _ _ _ Hpair) as Ha.
  exists payload. split_and!.
  - unfold CalcOutputValue. by rewrite Ha.
  - exact Hknown.
  - intros Hzero. split.
    + destruct Hknown as [?|Hin]; [done|].
      apply delivered_counts in Hin. lia.
    + unfold GetMessageCount, get_abstract_state_int. rewrite Ha. cbn.
      do 2 f_equal. replace k with 0 in Hcount by lia. by rewrite Hcount.
Qed.

(** X5.  From any world the simulator can reach: deliver a non-empty list of
    messages and commit once.  The abstract state then holds the last
    message of the list and the number of all deliveries so far, wrapped to
    [int], and the output port yields that last message. *)
Theorem commit_stores_the_latest_delivery (ops : list Operation) (w : World)
    (messages : list RosMessage) (message : RosMessage)
    (previous : RosMessage) :
  reachable_by ops w ->
  ∃ w1 w2 : World,
    run (Deliver <$> (messages ++ [message])) w = Some w1
    ∧ exec CalcUnrestrictedUpdate w1 = Some w2
    ∧ abstract_state (get_state (the_context w2))
      = [Value_RosMessage message;
         Value_int
           (Int.wrap (deliveries ops + Z.of_nat (length messages) + 1))]
    ∧ CalcOutputValue (the_context w2) (Value_RosMessage previous)
      = Some (Value_RosMessage message).
Proof.
  intros Hreach.
  destruct (reachable_invariant _ _ Hreach)
    as (payload & count & k & Hpair & Hlive & _).
  eexists _, _. split_and!.
  - apply run_deliveries.
  - cbn [exec the_system the_context]. unfold DoCalcUnrestrictedUpdate.
    rewrite (Process_on_pair _ _ _ _ Hpair). done.
  - cbn. rewrite deliver_all_snoc. cbn [HandleMessage received_message_
      received_message_count_].
    rewrite deliver_all_count by (rewrite Hlive; apply wrap_in_range).
    rewrite Hlive. unfold Int.incr.
    rewrite wrap_add_wrap, <- Z.add_assoc, wrap_add_wrap, Z.add_assoc. done.
  - cbn. rewrite deliver_all_snoc. done.
Qed.

(** X6.  A poll cannot tell 2^32 deliveries from none: if the context is in step
    with the object and exactly 2^32 messages are then delivered, the poll
    adds no event although the buffer holds a message the context has not
    seen. *)
Theorem poll_misses_2_32_deliveries (ops : list Operation) (w : World)
    (messages : list RosMessage) (events : CompositeEventCollection)
    (time : float) :
  reachable_by ops w ->
  GetMessageCount (the_context w)
  = Some (received_message_count_ (the_system w)) ->
  Z.of_nat (length messages) = 2 ^ 32 ->
  received_message_ (deliver_all (the_system w) messages)
  = List.last messages (received_message_ (the_system w))
  ∧ DoCalcNextUpdateTime (deliver_all (the_system w) messages) (the_context w)
      events time
    = Some (events, time).
Proof.
  intros Hreach Hsync Hlen. split; [apply deliver_all_message|].
  destruct (reachable_invariant _ _ Hreach)
    as (payload & count & k & Hpair & Hlive & _).
  destruct (DoCalcNextUpdateTime_on_pair
              (deliver_all (the_system w) messages) (the_context w) events
              time _ _ Hpair) as [Hget ->].
  rewrite Hsync in Hget. inversion Hget; subst count.
  rewrite counter_returns_after_2_32;
    [|rewrite Hlive; apply wrap_in_range|done].
  by rewrite decide_False by (by intros ?).
Qed.

(** ** Threads: the critical sections *)

(** X7.  Whoever owns the mutex gives it up within four of its own steps: no
    program point under the mutex blocks, and [wait] releases it. *)
Theorem mutex_released_within_four_steps (m : Machine) (t : thread_id)
    (th : Thread) :
  threads m !! t = Some th ->
  holds_mutex (pc th) = true ->
  ∃ n : nat,
    (1 <= n <= 4)%nat
    ∧ received_message_mutex_ (object (schedule (repeat (Step t) n) m)) = None.
Proof.
  intros Hth Hholds. destruct th as [p pend st wr]. cbn [pc] in Hholds.
  destruct p; try discriminate Hholds.
  - exists 4%nat. split; [lia|]. by rewrite (solo_schedule _ _ _ _ Hth).
  - exists 3%nat. split; [lia|]. by rewrite (solo_schedule _ _ _ _ Hth).
  - exists 2%nat. split; [lia|]. by rewrite (solo_schedule _ _ _ _ Hth).
  - exists 1%nat. split; [lia|]. by rewrite (solo_schedule _ _ _ _ Hth).
  - destruct (assign_RosMessage st kStateIndexMessage
                (received_message_ (object m))) as [a|] eqn:Ha.
    + destruct (assign_int a kStateIndexMessageCount
                  (received_message_count_ (object m))) as [a'|] eqn:Ha'.
      * exists 3%nat. split; [lia|]. rewrite (solo_schedule _ _ _ _ Hth).
        cbn [object solo step_thread pc scheduler_state pending
               waits_returned]. rewrite Ha.
        cbn [solo step_thread pc scheduler_state pending waits_returned].
        by rewrite Ha'.
      * exists 2%nat. split; [lia|]. rewrite (solo_schedule _ _ _ _ Hth).
        cbn [object solo step_thread pc scheduler_state pending
               waits_returned]. rewrite Ha.
        cbn [solo step_thread pc scheduler_state pending waits_returned].
        by rewrite Ha'.
    + exists 1%nat. split; [lia|]. rewrite (solo_schedule _ _ _ _ Hth).
      cbn [object solo step_thread pc scheduler_state pending
             waits_returned]. by rewrite Ha.
  - destruct (assign_int st kStateIndexMessageCount
                (received_message_count_ (object m))) as [a'|] eqn:Ha'.
    + exists 2%nat. split; [lia|]. rewrite (solo_schedule _ _ _ _ Hth).
      cbn [object solo step_thread pc scheduler_state pending
             waits_returned]. by rewrite Ha'.
    + exists 1%nat. split; [lia|]. rewrite (solo_schedule _ _ _ _ Hth).
      cbn [object solo step_thread pc scheduler_state pending
             waits_returned]. by rewrite Ha'.
  - exists 1%nat. split; [lia|]. by rewrite (solo_schedule _ _ _ _ Hth).
  - destruct (decide (old_message_count
                      = received_message_count_ (object m))) as [Heq|Hne].
    + exists 1%nat. split; [lia|]. rewrite (solo_schedule _ _ _ _ Hth).
      cbn [object solo step_thread pc]. by rewrite decide_True.
    + exists 3%nat. split; [lia|]. rewrite (solo_schedule _ _ _ _ Hth).
      cbn [object solo step_thread pc]. by rewrite decide_False.
  - exists 2%nat. split; [lia|]. by rewrite (solo_schedule _ _ _ _ Hth).
  - exists 1%nat. split; [lia|]. by rewrite (solo_schedule _ _ _ _ Hth).
Qed.

(** X8.  Under every schedule, no call of
    [ProcessMessageAndStoreToAbstractState] on a state that
    [AllocateAbstractState] made has thrown, and every such state still
    consists of a message box followed by an [int] box. *)
Theorem copy_never_throws (m : Machine) (t : thread_id) (th : Thread) :
  reachable_machine m ->
  threads m !! t = Some th ->
  pc th ≠ pc_thrown
  ∧ ∃ message count,
      scheduler_state th = [Value_RosMessage message; Value_int count].
Proof.
  intros Hreach Hth.
  destruct (reachable_machine_invariant m Hreach) as [(Hall & _) _].
  destruct (Hall _ _ Hth) as [_ Hthrown Hmid Hcons _ _ _].
  split; [done|].
  destruct (pc th) eqn:Hpc;
    first [ by (destruct (Hmid eq_refl) as [c Hc]; eexists _, c)
          | by (eapply consistent_inv, Hcons) ].
Qed.

(** X9.  When the mutex is free, a thread that runs
    [ProcessMessageAndStoreToAbstractState] without interruption ends with
    the pair of the most recent delivery (the constructor's pair if there
    was none), whose counter is the number of deliveries so far wrapped to
    [int]; the object is as before. *)
Theorem uninterrupted_copy_reads_latest_delivery (m : Machine)
    (t : thread_id) (th : Thread) (rest : list Call) :
  reachable_machine m ->
  received_message_mutex_ (object m) = None ->
  threads m !! t = Some th ->
  pc th = pc_idle ->
  pending th = call_ProcessMessageAndStoreToAbstractState :: rest ->
  object (schedule (repeat (Step t) 5) m) = object m
  ∧ (latest (delivered m)).2 = Int.wrap (Z.of_nat (length (delivered m)))
  ∧ ∃ th',
      threads (schedule (repeat (Step t) 5) m) !! t = Some th'
      ∧ pc th' = pc_idle
      ∧ snapshot_pair (scheduler_state th') = Some (latest (delivered m)).
Proof.
  intros Hreach Hfree Hth Hpc Hpending.
  destruct (reachable_machine_invariant m Hreach)
    as [(Hall & Hcount & Hmessage) Hcounted].
  pose proof (lookup_lt_Some _ _ _ Hth) as Hlt.
  assert (Hmsg : received_message_ (object m) = (latest (delivered m)).1).
  { apply Hmessage. intros t' th' Hth' Hpc'.
    pose proof (inv_mutex _ _ _ _ (Hall _ _ Hth')) as [Hown _].
    rewrite Hpc' in Hown. specialize (Hown eq_refl). congruence. }
  destruct (consistent_inv _ _
              (inv_consistent _ _ _ _ (Hall _ _ Hth)
                 ltac:(rewrite Hpc; discriminate)))
    as (m0 & c0 & Hst).
  rewrite (solo_schedule t 5 m th Hth).
  rewrite (solo_Process t _ _ th rest
             [Value_RosMessage (received_message_ (object m));
              Value_int (received_message_count_ (object m))]
             Hfree Hpc Hpending)
    by (by rewrite Hst).
  cbn [object threads fst snd]. split; [done|].
  split; [by apply counted_latest|].
  eexists. split; [by apply list_lookup_insert_eq|]. split; [done|].
  cbn. rewrite Hmsg, Hcount. by destruct (latest (delivered m)).
Qed.

End Subscriber.

(** * The class at [std_msgs::String]

    The template instantiated at a string message, with a node handle and a
    subscriber that carry no data, and a system without continuous or
    discrete state. *)

Definition ros_subscribe (node_handle : unit) (topic : string)
    (queue_size : Z) : unit := tt.

Definition chatter : @RosSubscriberSystem string unit unit :=
  {| topic_ := "chatter";
     received_message_mutex_ := None;
     received_message_condition_variable_ := [];
     received_message_ := ""%string;
     received_message_count_ := 0;
     node_handle_ := tt;
     subscriber_ := tt;
     get_name := "RosSubscriberSystem(chatter)" |}.

Definition chatter_context : @Context string unit unit :=
  AllocateContext ""%string tt tt.

Definition chatter_world : @World string unit unit unit unit :=
  {| the_system := chatter; the_context := chatter_context |}.

(** [n] messages, all alike. *)
Definition ticks (n : Z) : list string := repeat "tick"%string (Z.to_nat n).

Lemma chatter_constructed :
  new_RosSubscriberSystem ""%string ros_subscribe "chatter" (Some tt)
  = Returned chatter.
Proof. reflexivity. Qed.

Lemma ticks_length (n : Z) : 0 <= n -> Z.of_nat (length (ticks n)) = n.
Proof. intros Hn. unfold ticks. rewrite repeat_length. by apply Z2Nat.id. Qed.

Lemma chatter_reachable_by (ops : list Operation) (w : World) :
  run ""%string ops chatter_world = Some w ->
  reachable_by ""%string ros_subscribe ops w.
Proof. intros Hrun. by exists "chatter"%string, tt, chatter, tt, tt. Qed.

Lemma delivery_counter_wraps_at_INT_MAX_witness :
  received_message_count_ (deliver_all chatter (ticks (2 ^ 31 - 1)))
  = Int.INT_MAX
  /\ received_message_count_
       (HandleMessage (deliver_all chatter (ticks (2 ^ 31 - 1)))
          "tock"%string) = - 2 ^ 31.
Proof.
  pose proof (delivery_counter_wraps_at_INT_MAX chatter (ticks (2 ^ 31 - 1))
                "tock"%string eq_refl
                (ticks_length (2 ^ 31 - 1) ltac:(lia))) as H.
  split; [apply H|apply H].
Defined.

(** A world after a first message was delivered and committed and a second is
    waiting in the buffer. *)
Definition chatter_ops : list (@Operation string) :=
  [Deliver "A"%string; CalcUnrestrictedUpdate; Deliver "B"%string].

Definition chatter_world_AB : @World string unit unit unit unit :=
  {| the_system := HandleMessage (HandleMessage chatter "A"%string) "B"%string;
     the_context :=
       {| get_time := 0%float;
          get_state :=
            {| continuous_state := tt;
               discrete_state := tt;
               abstract_state :=
                 [Value_RosMessage "A"%string; Value_int 1] |} |} |}.

Lemma chatter_world_AB_reachable :
  reachable_by ""%string ros_subscribe chatter_ops chatter_world_AB.
Proof. apply chatter_reachable_by. reflexivity. Qed.

Lemma output_is_the_snapshot_payload_witness :
  reachable ""%string ros_subscribe chatter_world_AB
  /\ received_message_ (the_system chatter_world_AB) = "B"%string
  /\ CalcOutputValue (the_context chatter_world_AB)
       (Value_RosMessage ""%string)
     = Some (Value_RosMessage "A"%string).
Proof.
  assert (Hreach : reachable ""%string ros_subscribe chatter_world_AB)
    by (exists chatter_ops; apply chatter_world_AB_reachable).
  split; [exact Hreach|]. split; [reflexivity|].
  destruct (output_is_the_snapshot_payload ""%string ros_subscribe
              chatter_world_AB ""%string [] Hreach)
    as (payload & Hslot & Hout & _).
  rewrite Hout. cbn in Hslot. congruence.
Defined.

Lemma snapshot_counter_at_most_live_counter_witness :
  reachable_by ""%string ros_subscribe chatter_ops chatter_world_AB
  /\ exists last_message_count : Z,
       GetMessageCount (the_context chatter_world_AB)
       = Some last_message_count
       /\ last_message_count
          <= received_message_count_ (the_system chatter_world_AB).
Proof.
  split; [exact chatter_world_AB_reachable|].
  destruct (snapshot_counter_at_most_live_counter ""%string ros_subscribe
              chatter_ops chatter_world_AB no_events infinity
              chatter_world_AB_reachable)
    as (last & events' & time' & Hget & Hle & _).
  exists last. split; [exact Hget|]. apply Hle. vm_compute. discriminate.
Defined.

(** C2 fails beyond [INT_MAX] deliveries: 2^31 - 1 deliveries, a commit and
    one more delivery leave the snapshot counter at 2147483647 and the live
    counter at -2147483648. *)
Lemma snapshot_counter_exceeds_live_counter :
  exists w : @World string unit unit unit unit,
    reachable_by ""%string ros_subscribe
      ((Deliver <$> ticks (2 ^ 31 - 1))
         ++ [CalcUnrestrictedUpdate; Deliver "tock"%string]) w
    /\ GetMessageCount (the_context w) = Some 2147483647
    /\ received_message_count_ (the_system w) = -2147483648.
Proof.
  apply (snapshot_above_live_after_wrap ""%string ros_subscribe "chatter"
           tt chatter tt tt (ticks (2 ^ 31 - 1)) "tock"%string eq_refl).
  rewrite ticks_length by lia. reflexivity.
Qed.

Lemma commit_after_N_deliveries_witness :
  exists w1 w2 : @World string unit unit unit unit,
    run ""%string (Deliver <$> ["A"; "B"; "C"]%string) chatter_world = Some w1
    /\ exec ""%string CalcUnrestrictedUpdate w1 = Some w2
    /\ abstract_state (get_state (the_context w2))
       = [Value_RosMessage "C"%string; Value_int 3].
Proof.
  destruct (commit_after_N_deliveries ""%string chatter_world
              ["A"; "B"; "C"]%string ""%string eq_refl eq_refl
              ltac:(cbn; lia) ltac:(vm_compute; discriminate))
    as (w1 & w2 & time' & Hrun & _ & _ & _ & _ & Hexec & Hstate).
  exists w1, w2. split; [exact Hrun|]. split; [exact Hexec|exact Hstate].
Defined.

(** C3 fails for N = 2^32: the counter is back at 0, the poll adds no event
    and the commit stores the counter 0. *)
Lemma poll_silent_after_2_32_deliveries :
  Z.of_nat (length (ticks (2 ^ 32))) = 4294967296
  /\ DoCalcNextUpdateTime (deliver_all chatter (ticks (2 ^ 32)))
       chatter_context no_events infinity
     = Some (no_events, infinity)
  /\ (DoCalcUnrestrictedUpdate (deliver_all chatter (ticks (2 ^ 32)))
        chatter_context [] (get_state chatter_context)
      ≫= fun s => get_value (abstract_state s) kStateIndexMessageCount)
     = Some (Value_int 0).
Proof.
  assert (Hlen : Z.of_nat (length (ticks (2 ^ 32))) = 2 ^ 32)
    by (apply ticks_length; lia).
  assert (Hcount : received_message_count_
                     (deliver_all chatter (ticks (2 ^ 32))) = 0).
  { rewrite counter_returns_after_2_32; [reflexivity| |exact Hlen].
    vm_compute. split; discriminate. }
  split; [exact Hlen|].
  set (self := deliver_all chatter (ticks (2 ^ 32))) in *. clearbody self.
  split.
  - destruct (DoCalcNextUpdateTime_on_pair self chatter_context no_events
                infinity ""%string 0 eq_refl) as [_ ->].
    rewrite Hcount. reflexivity.
  - unfold DoCalcUnrestrictedUpdate.
    rewrite (Process_on_pair self (abstract_state (get_state chatter_context))
               ""%string 0 eq_refl).
    cbn. by rewrite Hcount.
Qed.

(** C4 fails at [INT_MAX]: the delivery after the first 2^31 - 1 takes the
    counter from 2147483647 to -2147483648. *)
Lemma HandleMessage_decrements_at_INT_MAX :
  received_message_count_ (deliver_all chatter (ticks (2 ^ 31 - 1)))
  = 2147483647
  /\ received_message_count_
       (HandleMessage (deliver_all chatter (ticks (2 ^ 31 - 1)))
          "tock"%string)
     = -2147483648.
Proof.
  assert (Hcount : received_message_count_
                     (deliver_all chatter (ticks (2 ^ 31 - 1)))
                   = 2147483647).
  { rewrite deliver_all_count_small; rewrite ?ticks_length by lia;
      [reflexivity|done|vm_compute; discriminate]. }
  split; [exact Hcount|].
  cbn [HandleMessage received_message_count_]. rewrite Hcount. reflexivity.
Qed.

(** Two threads: thread 0 waits for the counter to leave 0, thread 1 delivers
    two messages. *)
Definition waiter_and_deliverer : @Machine string unit unit :=
  boot ""%string chatter
    [[call_WaitForMessage 0];
     [call_HandleMessage "A"%string; call_HandleMessage "B"%string]].







(** The freshly allocated state at time -2^40. *)
Definition early_context : @Context string unit unit :=
  {| get_time := (-0x1p40)%float; get_state := get_state chatter_context |}.

(** Contexts of the freshly allocated state at time 0 and at time -2^40,
    polled by an object that has received one message. *)
Lemma refresh_time_is_time_plus_0_0001_witness :
  DoCalcNextUpdateTime (HandleMessage chatter "A"%string) chatter_context
    no_events infinity
  = Some (add_unrestricted_update_event no_events
            {| get_trigger_type := kTimed |},
          (0 + 0.0001)%float)
  /\ (0 <? 0 + 0.0001)%float = true
  /\ DoCalcNextUpdateTime (HandleMessage chatter "A"%string) early_context
       no_events infinity
     = Some (add_unrestricted_update_event no_events
               {| get_trigger_type := kTimed |},
             (-0x1p40 + 0.0001)%float)
  /\ (-0x1p40 <? -0x1p40 + 0.0001)%float = true.
Proof.
  destruct (refresh_time_is_time_plus_0_0001
              (HandleMessage chatter "A"%string) chatter_context no_events
              infinity 0 eq_refl ltac:(discriminate))
    as [Hpoll Hlater].
  destruct (refresh_time_is_time_plus_0_0001
              (HandleMessage chatter "A"%string) early_context no_events
              infinity 0 eq_refl ltac:(discriminate))
    as [Hpoll' Hlater'].
  split; [exact Hpoll|]. split; [apply Hlater; split; reflexivity|].
  split; [exact Hpoll'|]. apply Hlater'; split; reflexivity.
Defined.

(** The same state at time 2^40. *)
Definition late_context : @Context string unit unit :=
  {| get_time := 0x1p40%float; get_state := get_state chatter_context |}.

(** C6 fails twice.  At time 2^40 the reported time is the context time
    itself, not a later one.  At time 0 the reported time is 0.0001, and
    0.00005 is a time strictly between the two. *)
Lemma refresh_time_not_after_current_time :
  DoCalcNextUpdateTime (HandleMessage chatter "A"%string) late_context
    no_events infinity
  = Some (add_unrestricted_update_event no_events
            {| get_trigger_type := kTimed |},
          0x1p40%float)
  /\ (0x1p40 <? 0x1p40 + 0.0001)%float = false
  /\ (0 <? 0.00005)%float = true
  /\ (0.00005 <? 0 + 0.0001)%float = true.
Proof. repeat split. Qed.

(** Thread 0 delivers "A" and "B"; thread 1 copies the buffer twice, the
    first time between the two deliveries and the second time while the
    second delivery waits for the mutex. *)
Definition deliverer_and_reader : @Machine string unit unit :=
  schedule
    (repeat (Step 0) 6 ++ repeat (Step 1) 5 ++ [Step 0; Step 1; Step 1; Step 0]
       ++ repeat (Step 1) 3 ++ repeat (Step 0) 5)
    (boot ""%string chatter
       [[call_HandleMessage "A"%string; call_HandleMessage "B"%string];
        [call_ProcessMessageAndStoreToAbstractState;
         call_ProcessMessageAndStoreToAbstractState]]).

Lemma no_torn_reads_witness :
  reachable_machine ""%string ros_subscribe deliverer_and_reader
  /\ scheduler_state <$> threads deliverer_and_reader !! 1%nat
     = Some [Value_RosMessage "A"%string; Value_int 1]
  /\ exists pair : string * Z,
       (threads deliverer_and_reader !! 1%nat
        ≫= fun th => snapshot_pair (scheduler_state th)) = Some pair
       /\ pair ∈ (""%string, 0) :: delivered deliverer_and_reader.
Proof.
  assert (Hreach :
    reachable_machine ""%string ros_subscribe deliverer_and_reader).
  { eexists "chatter"%string, tt, chatter, _, _. split; reflexivity. }
  split; [exact Hreach|]. split; [reflexivity|].
  destruct (no_torn_reads ""%string ros_subscribe deliverer_and_reader Hreach)
    as (_ & _ & _ & Hread).
  destruct (Hread 1%nat
              {| pc := pc_idle; pending := [];
                 scheduler_state := [Value_RosMessage "A"%string; Value_int 1];
                 waits_returned := [] |} eq_refl)
    as [_ (pair & Hpair & Hin)]; [discriminate|].
  exists pair. split; [exact Hpair|exact Hin].
Defined.

Lemma commit_writes_two_slots_and_poll_none_witness :
  DoCalcUnrestrictedUpdate (HandleMessage chatter "A"%string) chatter_context
    [] (get_state chatter_context)
  = Some {| continuous_state := tt; discrete_state := tt;
            abstract_state := [Value_RosMessage "A"%string; Value_int 1] |}
  /\ length [Value_RosMessage "A"%string; Value_int 1]
     = length (abstract_state (get_state chatter_context)).
Proof.
  split; [reflexivity|].
  apply (commit_writes_two_slots_and_poll_none ""%string
           (HandleMessage chatter "A"%string) chatter_context []
           (get_state chatter_context)
           {| continuous_state := tt; discrete_state := tt;
              abstract_state := [Value_RosMessage "A"%string; Value_int 1] |}
           eq_refl).
Defined.

(** ** Instances of the further properties *)

Lemma name_determines_topic_witness :
  Make ""%string ros_subscribe "chatter" (Some tt) = Returned chatter
  /\ get_topic_name chatter = "chatter"%string
  /\ get_name chatter = make_name (get_topic_name chatter).
Proof.
  split; [reflexivity|].
  destruct (name_determines_topic ""%string ros_subscribe "chatter" tt chatter
              eq_refl) as (Htopic & Hname & _).
  split; [exact Htopic|exact Hname].
Defined.

(** The state a commit leaves after "A" was delivered to [chatter]. *)
Definition state_A : @State string unit unit :=
  {| continuous_state := tt; discrete_state := tt;
     abstract_state := [Value_RosMessage "A"%string; Value_int 1] |}.

Lemma poll_after_commit_is_silent_witness :
  DoCalcNextUpdateTime (HandleMessage chatter "A"%string)
    (with_state chatter_context state_A) no_events infinity
  = Some (no_events, infinity)
  /\ DoCalcUnrestrictedUpdate (HandleMessage chatter "A"%string)
       (with_state chatter_context state_A) [] state_A
     = Some state_A.
Proof.
  exact (poll_after_commit_is_silent (HandleMessage chatter "A"%string)
           chatter_context [] (get_state chatter_context) state_A no_events
           infinity eq_refl).
Defined.

Lemma commit_then_read_back_witness :
  GetMessageCount (with_state chatter_context state_A) = Some 1
  /\ CalcOutputValue (with_state chatter_context state_A)
       (Value_RosMessage ""%string)
     = Some (Value_RosMessage "A"%string).
Proof.
  destruct (commit_then_read_back (HandleMessage chatter "A"%string)
              chatter_context [] (get_state chatter_context) state_A
              ""%string eq_refl) as (Hcount & _ & Hout).
  split; [exact Hcount|exact Hout].
Defined.

Lemma output_was_delivered_witness :
  reachable_by ""%string ros_subscribe chatter_ops chatter_world_AB
  /\ exists payload : string,
       CalcOutputValue (the_context chatter_world_AB)
         (Value_RosMessage ""%string)
       = Some (Value_RosMessage payload)
       /\ (payload = ""%string \/ Deliver payload ∈ chatter_ops).
Proof.
  split; [exact chatter_world_AB_reachable|].
  destruct (output_was_delivered ""%string ros_subscribe chatter_ops
              chatter_world_AB ""%string chatter_world_AB_reachable)
    as (payload & Hout & Hknown & _).
  exists payload. split; [exact Hout|exact Hknown].
Defined.

Lemma commit_stores_the_latest_delivery_witness :
  reachable_by ""%string ros_subscribe chatter_ops chatter_world_AB
  /\ exists w1 w2 : @World string unit unit unit unit,
       run ""%string (Deliver <$> ["C"; "D"]%string) chatter_world_AB
       = Some w1
       /\ exec ""%string CalcUnrestrictedUpdate w1 = Some w2
       /\ abstract_state (get_state (the_context w2))
          = [Value_RosMessage "D"%string; Value_int 4].
Proof.
  split; [exact chatter_world_AB_reachable|].
  destruct (commit_stores_the_latest_delivery ""%string ros_subscribe
              chatter_ops chatter_world_AB ["C"%string] "D"%string ""%string
              chatter_world_AB_reachable)
    as (w1 & w2 & Hrun & Hexec & Hstate & _).
  exists w1, w2. split; [exact Hrun|]. split; [exact Hexec|exact Hstate].
Defined.

Lemma poll_misses_2_32_deliveries_witness :
  reachable_by ""%string ros_subscribe [] chatter_world
  /\ Z.of_nat (length (ticks (2 ^ 32))) = 2 ^ 32
  /\ DoCalcNextUpdateTime (deliver_all chatter (ticks (2 ^ 32)))
       chatter_context no_events infinity
     = Some (no_events, infinity).
Proof.
  assert (Hreach : reachable_by ""%string ros_subscribe [] chatter_world)
    by (apply chatter_reachable_by; reflexivity).
  assert (Hlen : Z.of_nat (length (ticks (2 ^ 32))) = 2 ^ 32)
    by (apply ticks_length; lia).
  split; [exact Hreach|]. split; [exact Hlen|].
  exact (proj2 (poll_misses_2_32_deliveries ""%string ros_subscribe []
                  chatter_world (ticks (2 ^ 32)) no_events infinity Hreach
                  eq_refl Hlen)).
Defined.

(** Thread 1 of [waiter_and_deliverer] has just locked the mutex. *)
Definition deliverer_in_critical_section : @Machine string unit unit :=
  schedule [Step 1; Step 1] waiter_and_deliverer.

Lemma mutex_released_within_four_steps_witness :
  received_message_mutex_ (object deliverer_in_critical_section) = Some 1%nat
  /\ exists n : nat,
       (1 <= n <= 4)%nat
       /\ received_message_mutex_
            (object (schedule (repeat (Step 1) n)
                       deliverer_in_critical_section)) = None.
Proof.
  split; [reflexivity|].
  exact (mutex_released_within_four_steps deliverer_in_critical_section 1%nat
           {| pc := HandleMessage_store "A"%string;
              pending := [call_HandleMessage "B"%string];
              scheduler_state := [Value_RosMessage ""%string; Value_int 0];
              waits_returned := [] |} eq_refl eq_refl).
Defined.

Lemma deliverer_and_reader_reachable :
  reachable_machine ""%string ros_subscribe deliverer_and_reader.
Proof. eexists "chatter"%string, tt, chatter, _, _. split; reflexivity. Qed.

Lemma copy_never_throws_witness :
  reachable_machine ""%string ros_subscribe deliverer_and_reader
  /\ exists (th : Thread) (message : string) (count : Z),
       threads deliverer_and_reader !! 1%nat = Some th
       /\ pc th ≠ pc_thrown
       /\ scheduler_state th = [Value_RosMessage message; Value_int count].
Proof.
  split; [exact deliverer_and_reader_reachable|].
  destruct (copy_never_throws ""%string ros_subscribe deliverer_and_reader
              1%nat
              {| pc := pc_idle; pending := [];
                 scheduler_state := [Value_RosMessage "A"%string; Value_int 1];
                 waits_returned := [] |}
              deliverer_and_reader_reachable eq_refl)
    as (Hpc & message & count & Hstate).
  exists {| pc := pc_idle; pending := [];
            scheduler_state := [Value_RosMessage "A"%string; Value_int 1];
            waits_returned := [] |}, message, count.
  split; [exact eq_refl|]. split; [exact Hpc|exact Hstate].
Defined.

(** One delivery is complete; thread 1 has not started its copy. *)
Definition reader_about_to_copy : @Machine string unit unit :=
  schedule (repeat (Step 0) 6)
    (boot ""%string chatter
       [[call_HandleMessage "A"%string];
        [call_ProcessMessageAndStoreToAbstractState]]).

Lemma reader_about_to_copy_reachable :
  reachable_machine ""%string ros_subscribe reader_about_to_copy.
Proof. eexists "chatter"%string, tt, chatter, _, _. split; reflexivity. Qed.

Lemma uninterrupted_copy_reads_latest_delivery_witness :
  reachable_machine ""%string ros_subscribe reader_about_to_copy
  /\ latest ""%string (delivered reader_about_to_copy) = ("A"%string, 1)
  /\ exists th' : Thread,
       threads (schedule (repeat (Step 1) 5) reader_about_to_copy) !! 1%nat
       = Some th'
       /\ snapshot_pair (scheduler_state th')
          = Some (latest ""%string (delivered reader_about_to_copy)).
Proof.
  split; [exact reader_about_to_copy_reachable|]. split; [reflexivity|].
  destruct (uninterrupted_copy_reads_latest_delivery ""%string ros_subscribe
              reader_about_to_copy 1%nat
              (spawn ""%string [call_ProcessMessageAndStoreToAbstractState])
              [] reader_about_to_copy_reachable eq_refl eq_refl eq_refl
              eq_refl)
    as (_ & _ & th' & Hth' & _ & Hpair).
  exists th'. split; [exact Hth'|exact Hpair].
Defined.
